(** * delaycall: the per-key delay dispatcher of [src/delaycall/main.go]

    The Go package runs three kinds of goroutines over shared state:
    - [processor] (the dispatcher) reads [externalCh] and either calls
      [callService] itself or routes the request to a per-UID channel;
    - [userDelayer] (one worker per UID in delay mode) drains its channel,
      and expires itself on an idle timer;
    - the anonymous goroutine of [init] (the ordering monitor) reads
      [checkCh] and panics on the first id that is not the next one.

    The embedding is a small-step interleaving semantics.  Every goroutine
    has a program counter naming the source line it is about to execute;
    a label picks the goroutine that moves (and resolves what the source
    leaves to the runtime: which ready [select] case is taken, the value
    of [rand.Intn]).  A step that would block in Go is not enabled
    ([None]); a Go panic is recorded in the state and stops the program.
    Time is a logical clock in milliseconds advanced by [Tick]: a sleeping
    goroutine or an armed timer can only proceed once the clock reached
    its wake-up time, and nothing bounds how late it may proceed.

    Left out: the log lines ([fmt.Printf], [uuid.NewString]), which touch
    no shared state.  The producer [simulateRequests] is the environment:
    its requests are the initial content of [externalCh].  The test, whose
    main goroutine sends them one by one through the bounded channel, is
    modelled on top of this program ([Harness]) and shown to refine it.

    The file has three parts: the program, the vocabulary of the
    invariants and of the properties, and the proofs. *)

From stdpp Require Import gmap strings list fin_maps pretty.
From Stdlib Require Import ZArith.

Set Default Proof Using "Type".

(** * The program *)

(** ** Data *)

(** [type Request struct] (main.go:13-18). [id] is an [int64]. *)
Record Request := mkRequest {
  UID : string;
  Payload : string;
  NeedsDelay : bool;
  id : Z
}.

#[global] Instance Request_eq_dec : EqDecision Request.
Proof. solve_decision. Defined.

(** The zero value a receive yields on a closed, drained channel. *)
Definition zeroRequest : Request := mkRequest "" "" false 0.

(** [const delay = 100 * time.Millisecond] (main.go:21), in milliseconds. *)
Definition delay : nat := 100.

(** Capacities of the buffered channels: [make(chan Request, 1000)]
    (main.go:46) and [make(chan int64, 1024)] (main.go:27). *)
Definition queueCap : nat := 1000.
Definition checkCap : nat := 1024.

(** Two's complement wrap-around of [int64] arithmetic. *)
Definition wrap64 (z : Z) : Z := ((z + 2 ^ 63) mod 2 ^ 64 - 2 ^ 63)%Z.

(** A buffered Go channel of requests. *)
Record Chan := mkChan {
  cbuf : list Request;
  ccap : nat;
  cclosed : bool
}.

(** What a channel or mutex operation does: complete, block, or panic. *)
Inductive Panic := MonitorAbort | SendOnClosed | CloseOfClosed | UnlockOfUnlocked.

Inductive Outcome (A : Type) :=
| Done (a : A)
| Block
| Fail (p : Panic).
Arguments Done {A} a.
Arguments Block {A}.
Arguments Fail {A} p.

#[global] Instance Panic_eq_dec : EqDecision Panic.
Proof. solve_decision. Defined.

(** [ch <- r] *)
Definition chan_send (r : Request) (c : Chan) : Outcome Chan :=
  if cclosed c then Fail SendOnClosed
  else if length (cbuf c) <? ccap c
       then Done (mkChan (cbuf c ++ [r]) (ccap c) (cclosed c))
       else Block.

(** [r, ok := <-ch] *)
Definition chan_recv (c : Chan) : Outcome (Request * bool * Chan) :=
  match cbuf c with
  | r :: rest => Done (r, true, mkChan rest (ccap c) (cclosed c))
  | [] => if cclosed c then Done (zeroRequest, false, c) else Block
  end.

(** [close(ch)] *)
Definition chan_close (c : Chan) : Outcome Chan :=
  if cclosed c then Fail CloseOfClosed
  else Done (mkChan (cbuf c) (ccap c) true).

(** Goroutines that call the execution sink or take the mutex. *)
Inductive Tid := TDisp | TWorker (i : nat).

#[global] Instance Tid_eq_dec : EqDecision Tid.
Proof. solve_decision. Defined.

(** One call of [callService]: which request, by whom, at what time. *)
Record SinkEvent := mkEvent {
  ev_req : Request;
  ev_by : Tid;
  ev_at : nat
}.

(** ** Program counters *)

(** [processor] (main.go:31-58).  Each constructor is the statement the
    dispatcher executes next, with the locals that are live there. *)
Inductive DPc :=
| DRecv                                   (* 33: for req := range externalCh *)
| DLock (r : Request)                     (* 34: mu.Lock() *)
| DLookup (r : Request)                   (* 35,36,44: lookup and branch *)
| DSend (r : Request) (c : nat)           (* 39: ch <- req *)
| DUnlockRouted                           (* 41: mu.Unlock(); continue *)
| DMake (r : Request)                     (* 46,47: make, install *)
| DSendSeed (r : Request) (c : nat)       (* 48: ch <- req *)
| DUnlockSpawn (r : Request) (c : nat)    (* 49: mu.Unlock() *)
| DSpawn (r : Request) (c : nat)          (* 50: go userDelayer(req.UID, ch) *)
| DUnlockDirect (r : Request)             (* 54: mu.Unlock() *)
| DCall (r : Request)                     (* 56 -> 125: checkCh <- r.id *)
| DCallSleep (r : Request) (wake : nat)   (* 126: inside time.Sleep *)
| DDone.                                  (* externalCh closed and drained *)

(** [userDelayer] (main.go:61-118). *)
Inductive WPc :=
| WRecvSeed                               (* 65: req, ok := <-ch *)
| WSeedLock                               (* 67: mu.Lock() *)
| WSeedDelete                             (* 68: delete(activeDelayers, uid) *)
| WSeedClose                              (* 69: close(ch) *)
| WSeedUnlock                             (* 70: mu.Unlock(); return *)
| WCallSeed (r : Request)                 (* 74 -> 125: checkCh <- r.id *)
| WCallSeedSleep (r : Request) (wake : nat) (* 126: inside time.Sleep *)
| WNewTimer                               (* 79: timer := time.NewTimer(delay) *)
| WSelect                                 (* 81: select *)
| WStop (r : Request) (ok : bool)         (* 84-87: timer.Stop(); if !ok return *)
| WCall (r : Request)                     (* 89 -> 125: checkCh <- r.id *)
| WCallSleep (r : Request) (wake : nat)   (* 126: inside time.Sleep *)
| WThrottle (r : Request)                 (* 92: if nextReq.NeedsDelay *)
| WSleep (r : Request) (wake : nat)       (* 93: inside time.Sleep(delay) *)
| WReset (r : Request)                    (* 96: timer.Reset(delay); continue *)
| WTimerLock                              (* 100: mu.Lock() *)
| WTimerCheck                             (* 102: if len(ch) > 0 *)
| WTimerReset                             (* 104: timer.Reset(delay) *)
| WTimerUnlock                            (* 105: mu.Unlock(); continue *)
| WDelete                                 (* 109: delete(activeDelayers, uid) *)
| WClose                                  (* 110: close(ch) *)
| WUnlock                                 (* 111: mu.Unlock() *)
| WTimerStop                              (* 114: timer.Stop(); return *)
| WDone.

(** A [userDelayer] goroutine: its arguments, its program counter and its
    timer.  [w_timer = Some d] is a timer armed to fire at time [d]; with
    the Go 1.23 timers the module asks for (go.mod), a stopped, reset or
    already received timer delivers nothing, which is [None]. *)
Record Worker := mkWorker {
  w_uid : string;
  w_ch : nat;
  w_pc : WPc;
  w_timer : option nat
}.

(** ** The state of the program *)

(** The package variables (main.go:23-28), the goroutines, and history.
    - [externalCh] holds the requests the dispatcher has still to read,
      those in the channel's buffer and those the producer has yet to
      send; the producer closes the channel after the last request
      (main.go:157), so an empty [externalCh] ends the [range] loop.
    - [chans] is the heap of per-UID channels; a channel value is its
      index.
    - [mu] is [None] when the mutex is free, else its holder.
    - [consumed], [accepted] and [sink] are history variables: the
      requests read so far, the ids the monitor let pass, and the calls
      of [callService] in the order of their [checkCh <- r.id]. *)
Record State := mkState {
  now : nat;
  externalCh : list Request;
  consumed : list Request;
  mu : option Tid;
  activeDelayers : gmap string nat;
  chans : list Chan;
  checkCh : list Z;
  dpc : DPc;
  workers : list Worker;
  nextId : Z;
  accepted : list Z;
  crashed : option Panic;
  sink : list SinkEvent
}.

Definition init (inp : list Request) : State :=
  mkState 0 inp [] None ∅ [] [] DRecv [] 0 [] None [].

(** Record updates. *)
Definition set_now (x : nat) (s : State) : State :=
  mkState x (externalCh s) (consumed s) (mu s) (activeDelayers s) (chans s)
    (checkCh s) (dpc s) (workers s) (nextId s) (accepted s) (crashed s) (sink s).
Definition set_mu (x : option Tid) (s : State) : State :=
  mkState (now s) (externalCh s) (consumed s) x (activeDelayers s) (chans s)
    (checkCh s) (dpc s) (workers s) (nextId s) (accepted s) (crashed s) (sink s).
Definition set_table (x : gmap string nat) (s : State) : State :=
  mkState (now s) (externalCh s) (consumed s) (mu s) x (chans s)
    (checkCh s) (dpc s) (workers s) (nextId s) (accepted s) (crashed s) (sink s).
Definition set_chans (x : list Chan) (s : State) : State :=
  mkState (now s) (externalCh s) (consumed s) (mu s) (activeDelayers s) x
    (checkCh s) (dpc s) (workers s) (nextId s) (accepted s) (crashed s) (sink s).
Definition set_dpc (x : DPc) (s : State) : State :=
  mkState (now s) (externalCh s) (consumed s) (mu s) (activeDelayers s) (chans s)
    (checkCh s) x (workers s) (nextId s) (accepted s) (crashed s) (sink s).
Definition set_workers (x : list Worker) (s : State) : State :=
  mkState (now s) (externalCh s) (consumed s) (mu s) (activeDelayers s) (chans s)
    (checkCh s) (dpc s) x (nextId s) (accepted s) (crashed s) (sink s).
Definition set_crashed (p : Panic) (s : State) : State :=
  mkState (now s) (externalCh s) (consumed s) (mu s) (activeDelayers s) (chans s)
    (checkCh s) (dpc s) (workers s) (nextId s) (accepted s) (Some p) (sink s).
Definition recv_external (r : Request) (rest : list Request) (s : State) : State :=
  mkState (now s) rest (consumed s ++ [r]) (mu s) (activeDelayers s) (chans s)
    (checkCh s) (dpc s) (workers s) (nextId s) (accepted s) (crashed s) (sink s).

Definition set_wpc (p : WPc) (w : Worker) : Worker :=
  mkWorker (w_uid w) (w_ch w) p (w_timer w).
Definition set_timer (t : option nat) (w : Worker) : Worker :=
  mkWorker (w_uid w) (w_ch w) (w_pc w) t.

Definition upd_worker (i : nat) (w : Worker) (s : State) : State :=
  set_workers (<[i:=w]> (workers s)) s.
Definition upd_chan (c : nat) (ch : Chan) (s : State) : State :=
  set_chans (<[c:=ch]> (chans s)) s.

(** ** Shared operations *)

(** [mu.Lock()]: blocks while the mutex is held. *)
Definition mu_lock (t : Tid) (s : State) : option State :=
  match mu s with
  | None => Some (set_mu (Some t) s)
  | Some _ => None
  end.

(** [mu.Unlock()]: a fatal error when the mutex is not locked. *)
Definition mu_unlock (s : State) : State :=
  match mu s with
  | None => set_crashed UnlockOfUnlocked s
  | Some _ => set_mu None s
  end.

(** [ch <- r] on the channel with handle [c]. *)
Definition send_on (c : nat) (r : Request) (s : State) : option State :=
  ch ← chans s !! c;
  match chan_send r ch with
  | Done ch' => Some (upd_chan c ch' s)
  | Block => None
  | Fail p => Some (set_crashed p s)
  end.

(** [close(ch)] on the channel with handle [c]. *)
Definition close_on (c : nat) (s : State) : option State :=
  ch ← chans s !! c;
  match chan_close ch with
  | Done ch' => Some (upd_chan c ch' s)
  | Block => None
  | Fail p => Some (set_crashed p s)
  end.

(** The first statement of [callService] (main.go:125): [checkCh <- r.id],
    which blocks while [checkCh] is full.  This send is the invocation of
    the execution sink; it is logged in [sink].  The second statement,
    the sleep, is the program counter the caller moves to. *)
Definition callService (t : Tid) (r : Request) (s : State) : option State :=
  if length (checkCh s) <? checkCap then
    Some (mkState (now s) (externalCh s) (consumed s) (mu s) (activeDelayers s)
            (chans s) (checkCh s ++ [id r]) (dpc s) (workers s) (nextId s)
            (accepted s) (crashed s) (sink s ++ [mkEvent r t (now s)]))
  else None.

(** [time.Duration(rand.Intn(50)) * time.Millisecond] (main.go:126). *)
Definition sink_latency (rnd : nat) : nat := rnd mod 50.

(** ** The goroutines *)

(** One statement of [processor] (main.go:31-58).  [rnd] is what
    [rand.Intn] returns if the statement draws a number. *)
Definition processor (rnd : nat) (s : State) : option State :=
  match dpc s with
  | DRecv =>
      match externalCh s with
      | [] => Some (set_dpc DDone s)
      | r :: rest => Some (set_dpc (DLock r) (recv_external r rest s))
      end
  | DLock r => set_dpc (DLookup r) <$> mu_lock TDisp s
  | DLookup r =>
      match activeDelayers s !! UID r with
      | Some c => Some (set_dpc (DSend r c) s)
      | None =>
          if NeedsDelay r then Some (set_dpc (DMake r) s)
          else Some (set_dpc (DUnlockDirect r) s)
      end
  | DSend r c => set_dpc DUnlockRouted <$> send_on c r s
  | DUnlockRouted => Some (set_dpc DRecv (mu_unlock s))
  | DMake r =>
      let c := length (chans s) in
      Some (set_dpc (DSendSeed r c)
              (set_table (<[UID r := c]> (activeDelayers s))
                 (set_chans (chans s ++ [mkChan [] queueCap false]) s)))
  | DSendSeed r c => set_dpc (DUnlockSpawn r c) <$> send_on c r s
  | DUnlockSpawn r c => Some (set_dpc (DSpawn r c) (mu_unlock s))
  | DSpawn r c =>
      Some (set_dpc DRecv
              (set_workers (workers s ++ [mkWorker (UID r) c WRecvSeed None]) s))
  | DUnlockDirect r => Some (set_dpc (DCall r) (mu_unlock s))
  | DCall r =>
      set_dpc (DCallSleep r (now s + sink_latency rnd)) <$> callService TDisp r s
  | DCallSleep r wake =>
      if wake <=? now s then Some (set_dpc DRecv s) else None
  | DDone => None
  end.

(** One statement of the [userDelayer] goroutine number [i]
    (main.go:61-118).  At the [select], [timerCase] says which case the
    runtime takes; the step is enabled only if that case is ready. *)
Definition userDelayer (i : nat) (timerCase : bool) (rnd : nat) (s : State)
  : option State :=
  w ← workers s !! i;
  match w_pc w with
  | WRecvSeed =>
      ch ← chans s !! w_ch w;
      match chan_recv ch with
      | Done (r, ok, ch') =>
          Some (upd_worker i (set_wpc (if ok then WCallSeed r else WSeedLock) w)
                  (upd_chan (w_ch w) ch' s))
      | _ => None
      end
  | WSeedLock => upd_worker i (set_wpc WSeedDelete w) <$> mu_lock (TWorker i) s
  | WSeedDelete =>
      Some (upd_worker i (set_wpc WSeedClose w)
              (set_table (delete (w_uid w) (activeDelayers s)) s))
  | WSeedClose => upd_worker i (set_wpc WSeedUnlock w) <$> close_on (w_ch w) s
  | WSeedUnlock => Some (upd_worker i (set_wpc WDone w) (mu_unlock s))
  | WCallSeed r =>
      upd_worker i (set_wpc (WCallSeedSleep r (now s + sink_latency rnd)) w)
        <$> callService (TWorker i) r s
  | WCallSeedSleep r wake =>
      if wake <=? now s then Some (upd_worker i (set_wpc WNewTimer w) s) else None
  | WNewTimer =>
      Some (upd_worker i (set_wpc WSelect (set_timer (Some (now s + delay)) w)) s)
  | WSelect =>
      if timerCase then
        match w_timer w with
        | Some d =>
            if d <=? now s
            then Some (upd_worker i (set_wpc WTimerLock (set_timer None w)) s)
            else None
        | None => None
        end
      else
        ch ← chans s !! w_ch w;
        match chan_recv ch with
        | Done (r, ok, ch') =>
            Some (upd_worker i (set_wpc (WStop r ok) w) (upd_chan (w_ch w) ch' s))
        | _ => None
        end
  | WStop r ok =>
      Some (upd_worker i
              (set_wpc (if ok then WCall r else WDone) (set_timer None w)) s)
  | WCall r =>
      upd_worker i (set_wpc (WCallSleep r (now s + sink_latency rnd)) w)
        <$> callService (TWorker i) r s
  | WCallSleep r wake =>
      if wake <=? now s then Some (upd_worker i (set_wpc (WThrottle r) w) s) else None
  | WThrottle r =>
      Some (upd_worker i
              (set_wpc (if NeedsDelay r then WSleep r (now s + delay) else WReset r) w)
              s)
  | WSleep r wake =>
      if wake <=? now s then Some (upd_worker i (set_wpc (WReset r) w) s) else None
  | WReset r =>
      Some (upd_worker i (set_wpc WSelect (set_timer (Some (now s + delay)) w)) s)
  | WTimerLock => upd_worker i (set_wpc WTimerCheck w) <$> mu_lock (TWorker i) s
  | WTimerCheck =>
      ch ← chans s !! w_ch w;
      if 0 <? length (cbuf ch)
      then Some (upd_worker i (set_wpc WTimerReset w) s)
      else Some (upd_worker i (set_wpc WDelete w) s)
  | WTimerReset =>
      Some (upd_worker i
              (set_wpc WTimerUnlock (set_timer (Some (now s + delay)) w)) s)
  | WTimerUnlock => Some (upd_worker i (set_wpc WSelect w) (mu_unlock s))
  | WDelete =>
      Some (upd_worker i (set_wpc WClose w)
              (set_table (delete (w_uid w) (activeDelayers s)) s))
  | WClose => upd_worker i (set_wpc WUnlock w) <$> close_on (w_ch w) s
  | WUnlock => Some (upd_worker i (set_wpc WTimerStop w) (mu_unlock s))
  | WTimerStop => Some (upd_worker i (set_wpc WDone (set_timer None w)) s)
  | WDone => None
  end.

(** One iteration of the monitor goroutine of [init] (main.go:129-142):
    receive an id from [checkCh], panic unless it is [nextId], then
    [nextId = id + 1] in [int64]. *)
Definition monitor (s : State) : option State :=
  match checkCh s with
  | [] => None
  | x :: rest =>
      if decide (nextId s = x) then
        Some (mkState (now s) (externalCh s) (consumed s) (mu s) (activeDelayers s)
                (chans s) rest (dpc s) (workers s) (wrap64 (x + 1))
                (accepted s ++ [x]) (crashed s) (sink s))
      else
        Some (mkState (now s) (externalCh s) (consumed s) (mu s) (activeDelayers s)
                (chans s) rest (dpc s) (workers s) (nextId s)
                (accepted s) (Some MonitorAbort) (sink s))
  end.

(** ** Interleaving *)

Inductive Label :=
| Tick                                            (* one millisecond passes *)
| Disp (rnd : nat)                                (* the dispatcher moves *)
| Work (i : nat) (timerCase : bool) (rnd : nat)   (* worker [i] moves *)
| Mon.                                            (* the monitor moves *)

(** A panic ends the program: nothing moves afterwards. *)
Definition step (l : Label) (s : State) : option State :=
  match crashed s with
  | Some _ => None
  | None =>
      match l with
      | Tick => Some (set_now (S (now s)) s)
      | Disp rnd => processor rnd s
      | Work i tc rnd => userDelayer i tc rnd s
      | Mon => monitor s
      end
  end.

Fixpoint run (sched : list Label) (s : State) : option State :=
  match sched with
  | [] => Some s
  | l :: sched' => s' ← step l s; run sched' s'
  end.

(** The states the program can be in after reading from the stream [inp]. *)
Definition reachable (inp : list Request) (s : State) : Prop :=
  ∃ sched, run sched (init inp) = Some s.

(** The requests handed to the execution sink, in order. *)
Definition executed (s : State) : list Request := ev_req <$> sink s.

(** The state an explicit schedule leads to (the initial state if the
    schedule cannot be followed). *)
Definition after (sched : list Label) (inp : list Request) : State :=
  default (init inp) (run sched (init inp)).

(** A short-hand for schedules. *)
Definition ticks (n : nat) : list Label := replicate n Tick.
Definition disp (n : nat) : list Label := replicate n (Disp 0).
Definition work (i n : nat) : list Label := replicate n (Work i false 0).
Definition fire (i : nat) : list Label := [Work i true 0].

(** ** Scenarios of the specification *)

(** Scenario A: one request without the delay flag. *)
Definition scenarioA : list Request := [mkRequest "K" "a" false 0].

Definition scheduleA : list Label := disp 6 ++ [Mon] ++ disp 1.

(** Scenario B: a delay-flagged request, then a plain one for the same
    key 10 ms later; the worker expires 100 ms after "b". *)
Definition scenarioB : list Request :=
  [mkRequest "K" "a" true 0; mkRequest "K" "b" false 1].

Definition scheduleB : list Label :=
  disp 7 ++ work 0 4 ++ ticks 10 ++ disp 5 ++ work 0 6 ++ [Mon; Mon] ++ disp 1
  ++ ticks 100 ++ fire 0 ++ work 0 6.

(** Scenario D: one delay-flagged request each for two keys.  In
    [scheduleD] the workers call the sink in the order of the ids; in
    [scheduleD_abort] the worker of "K2" is first, and the monitor reads
    id 1 while it expects 0. *)
Definition scenarioD : list Request :=
  [mkRequest "K1" "a" true 0; mkRequest "K2" "b" true 1].

Definition scheduleD : list Label :=
  disp 7 ++ disp 7 ++ disp 1 ++ work 0 4 ++ work 1 4 ++ [Mon; Mon]
  ++ ticks 100 ++ fire 1 ++ work 1 6 ++ fire 0 ++ work 0 6.

Definition scheduleD_abort : list Label :=
  disp 7 ++ disp 7 ++ work 1 2 ++ [Mon].

(** * Vocabulary *)

(** ** The mutex protects the critical sections *)

(** The statements between [mu.Lock()] and [mu.Unlock()]. *)
Definition dlocked (p : DPc) : bool :=
  match p with
  | DLookup _ | DSend _ _ | DUnlockRouted | DMake _ | DSendSeed _ _
  | DUnlockSpawn _ _ | DUnlockDirect _ => true
  | _ => false
  end.

Definition wlocked (p : WPc) : bool :=
  match p with
  | WSeedDelete | WSeedClose | WSeedUnlock | WTimerCheck | WTimerReset
  | WTimerUnlock | WDelete | WClose | WUnlock => true
  | _ => false
  end.

Definition InvLock (s : State) : Prop :=
  (dlocked (dpc s) = true → mu s = Some TDisp) ∧
  (∀ i w, workers s !! i = Some w → wlocked (w_pc w) = true →
          mu s = Some (TWorker i)).

(** ** Workers, channels and the routing table *)

(** A worker is [active] until it has deleted its routing entry. *)
Definition active (p : WPc) : bool :=
  match p with
  | WSeedClose | WSeedUnlock | WClose | WUnlock | WTimerStop | WDone => false
  | _ => true
  end.

(** The statements after the worker's [close(ch)]. *)
Definition closedpc (p : WPc) : bool :=
  match p with
  | WUnlock | WTimerStop | WDone => true
  | _ => false
  end.

(** The statements after the worker found [len(ch) = 0] under the lock. *)
Definition emptied (p : WPc) : bool :=
  match p with
  | WDelete | WClose | WUnlock | WTimerStop | WDone => true
  | _ => false
  end.

(** The branches taken when a receive reports a closed channel. *)
Definition unreach (p : WPc) : bool :=
  match p with
  | WSeedLock | WSeedDelete | WSeedClose | WSeedUnlock | WStop _ false => true
  | _ => false
  end.

(** The dispatcher has installed an entry whose worker is not spawned yet. *)
Definition spawn_of (p : DPc) : option (Request * nat) :=
  match p with
  | DSendSeed r c | DUnlockSpawn r c | DSpawn r c => Some (r, c)
  | _ => None
  end.

(** What the dispatcher found in the table for the request it holds. *)
Definition dview (p : DPc) : option (string * option nat) :=
  match p with
  | DSend r c => Some (UID r, Some c)
  | DMake r | DUnlockDirect r | DCall r => Some (UID r, None)
  | _ => None
  end.

Record InvStruct (s : State) : Prop := {
  st_ch : ∀ i w, workers s !! i = Some w → w_ch w = i;
  st_len : length (chans s)
           = length (workers s) + (if spawn_of (dpc s) is Some _ then 1 else 0);
  st_spawn : ∀ r c, spawn_of (dpc s) = Some (r, c) →
      c = length (workers s) ∧ activeDelayers s !! UID r = Some c;
  st_entry : ∀ k c, activeDelayers s !! k = Some c →
      (∃ w, workers s !! c = Some w ∧ w_uid w = k ∧ active (w_pc w) = true)
      ∨ (∃ r, spawn_of (dpc s) = Some (r, c) ∧ UID r = k);
  st_active : ∀ i w, workers s !! i = Some w → active (w_pc w) = true →
      activeDelayers s !! w_uid w = Some i;
  st_closed : ∀ c ch, chans s !! c = Some ch → cclosed ch = true →
      ∃ w, workers s !! c = Some w ∧ closedpc (w_pc w) = true;
  st_unreach : ∀ i w, workers s !! i = Some w → unreach (w_pc w) = false;
  st_empty : ∀ i w ch, workers s !! i = Some w → chans s !! i = Some ch →
      emptied (w_pc w) = true → cbuf ch = [];
  st_view : ∀ k o, dview (dpc s) = Some (k, o) → activeDelayers s !! k = o;
  st_cap : ∀ c ch, chans s !! c = Some ch → ccap ch = queueCap;
  st_crash : crashed s = None ∨ crashed s = Some MonitorAbort
}.

(** The structural invariant of the reachable states. *)
Definition Inv (s : State) : Prop := InvLock s ∧ InvStruct s.

(** ** Requests in flight, per key *)

(** The request a worker has received and not yet handed to the sink. *)
Definition wheld (p : WPc) : list Request :=
  match p with
  | WCallSeed r | WStop r true | WCall r => [r]
  | _ => []
  end.

(** The request the dispatcher has read and not yet sent or executed. *)
Definition dheld (p : DPc) : list Request :=
  match p with
  | DLock r | DLookup r | DSend r _ | DMake r | DSendSeed r _
  | DUnlockDirect r | DCall r => [r]
  | _ => []
  end.

Definition for_key (k : string) (l : list Request) : list Request :=
  filter (λ r, UID r = k) l.

Definition held_at (ws : list Worker) (c : nat) : list Request :=
  from_option (λ w, wheld (w_pc w)) [] (ws !! c).

Definition buf_at (cs : list Chan) (c : nat) : list Request :=
  from_option cbuf [] (cs !! c).

(** The requests of key [k] that wait in its worker and its queue, oldest
    first. *)
Definition queued (k : string) (s : State) : list Request :=
  match activeDelayers s !! k with
  | Some c => held_at (workers s) c ++ buf_at (chans s) c
  | None => []
  end.

(** All requests of key [k] that were read and are not yet executed. *)
Definition pending (k : string) (s : State) : list Request :=
  queued k s ++ for_key k (dheld (dpc s)).

Record InvFifo (inp : list Request) (s : State) : Prop := {
  ff_order : ∀ k, for_key k (executed s) ++ pending k s = for_key k (consumed s);
  ff_buf : ∀ k c ch, activeDelayers s !! k = Some c → chans s !! c = Some ch →
      Forall (λ r, UID r = k) (cbuf ch);
  ff_held : ∀ i w, workers s !! i = Some w →
      Forall (λ r, UID r = w_uid w) (wheld (w_pc w));
  ff_input : consumed s ++ externalCh s = inp;
  ff_done : dpc s = DDone → externalCh s = []
}.

(** ** The ordering monitor *)

Definition nth_id (n : nat) : Z := wrap64 (Z.of_nat n).

Record InvMon (s : State) : Prop := {
  mon_next : nextId s = nth_id (length (accepted s));
  mon_acc : accepted s = nth_id <$> seq 0 (length (accepted s));
  mon_ids :
    match crashed s with
    | None => id <$> executed s = accepted s ++ checkCh s
    | Some _ => ∃ x, id <$> executed s = accepted s ++ x :: checkCh s
                     ∧ x ≠ nextId s
    end
}.

(** ** Timing of a worker's calls *)

(** The calls of [callService] made by worker [i], oldest first. *)
Definition wlog (i : nat) (s : State) : list SinkEvent :=
  filter (λ e, ev_by e = TWorker i) (sink s).

(** Every call happened by time [t]. *)
Definition past (t : nat) (es : list SinkEvent) : Prop :=
  Forall (λ e, ev_at e ≤ t) es.

(** Every call happened at least one [delay] before [t]. *)
Definition late (t : nat) (es : list SinkEvent) : Prop :=
  Forall (λ e, ev_at e + delay ≤ t) es.

(** If the latest call was for a request with the delay flag, it happened
    at least one [delay] before [t]. *)
Definition rested0 (t : nat) (es : list SinkEvent) : Prop :=
  ∀ es' e, es = es' ++ [e] → NeedsDelay (ev_req e) = true → ev_at e + delay ≤ t.

(** The same, unless the latest call is the first one (the seed). *)
Definition rested (t : nat) (es : list SinkEvent) : Prop :=
  ∀ es' e, es = es' ++ [e] → es' ≠ [] → NeedsDelay (ev_req e) = true →
           ev_at e + delay ≤ t.

(** After every call but the first, a delay-flagged request is followed
    by a full [delay] before the next call. *)
Definition throttled (es : list SinkEvent) : Prop :=
  ∀ j e1 e2, es !! S j = Some e1 → es !! S (S j) = Some e2 →
             NeedsDelay (ev_req e1) = true → ev_at e1 + delay ≤ ev_at e2.

Definition wtime (t : nat) (es : list SinkEvent) (w : Worker) : Prop :=
  match w_pc w with
  | WRecvSeed | WCallSeed _ => es = []
  | WCallSeedSleep _ _ | WNewTimer => length es = 1
  | WCallSleep r _ | WThrottle r => ∃ es' e, es = es' ++ [e] ∧ ev_req e = r
  | WSleep r wake =>
      ∃ es' e, es = es' ++ [e] ∧ ev_req e = r ∧ ev_at e + delay ≤ wake
  | WReset r =>
      ∃ es' e, es = es' ++ [e] ∧ ev_req e = r
               ∧ (NeedsDelay r = true → ev_at e + delay ≤ t)
  | WSelect | WTimerUnlock => rested t es ∧ ∃ d, w_timer w = Some d ∧ late d es
  | WStop _ _ | WCall _ => rested t es
  | WTimerLock | WTimerCheck | WTimerReset | WDelete | WClose | WUnlock
  | WTimerStop | WDone => late t es
  | WSeedLock | WSeedDelete | WSeedClose | WSeedUnlock => True
  end.

Record InvTime (s : State) : Prop := {
  tm_fresh : ∀ i, length (workers s) ≤ i → wlog i s = [];
  tm_past : ∀ i, past (now s) (wlog i s);
  tm_throttled : ∀ i, throttled (wlog i s);
  tm_pc : ∀ i w, workers s !! i = Some w → wtime (now s) (wlog i s) w
}.



(** ** States of scenario B *)

(** The state of scenario B in which the worker for "K" waits in its
    [select] and the dispatcher has read and looked up the second request. *)
Definition midB : State := after (disp 7 ++ work 0 4 ++ disp 2) scenarioB.

(** The state of scenario B in which the worker for "K" has executed the
    seed and waits in its [select], its timer set to 100. *)
Definition waitB : State := after (disp 7 ++ work 0 4) scenarioB.

(** The state at the end of scenario B. *)
Definition endB : State := after scheduleB scenarioB.

(** The state of scenario B in which the dispatcher has read and looked
    up the first request. *)
Definition startB : State := after (disp 2) scenarioB.


(** ** The end of a run *)

(** The dispatcher has left its loop and every worker has returned. *)
Definition finished (s : State) : Prop :=
  dpc s = DDone ∧ ∀ i w, workers s !! i = Some w → w_pc w = WDone.

(** ** A run that deadlocks *)

(** [simulateRequests] (main.go:145-158): request number [i] is
    [Request{"user1", fmt.Sprintf("task%03d", i), rand.Intn(100) == 0,
    int64(i)}]; [draws] are the values of [rand.Intn(100)]. *)
Definition task_payload (i : nat) : string :=
  "task" +:+ (if i <? 10 then "00" else if i <? 100 then "0" else "")
         +:+ pretty i.

Definition simulateRequests (draws : list nat) : list Request :=
  imap (λ i d, mkRequest "user1" (task_payload i) (d =? 0) (Z.of_nat i)) draws.

(** One delay-flagged request followed by 1001 plain ones. *)
Definition burst : list Request := simulateRequests (0 :: replicate 1001 1).

(** The worker takes the timer case of its [select] and is then not
    scheduled while the dispatcher routes 1000 requests into its queue;
    the dispatcher blocks on the next send with the mutex held, the
    worker blocks on [mu.Lock()]. *)
Definition burst_schedule : list Label :=
  disp 7 ++ work 0 4 ++ [Mon] ++ ticks 100 ++ fire 0
  ++ mjoin (replicate 1000 (disp 5)) ++ disp 3.

Definition deadlocked : State := after burst_schedule burst.

(** The dispatcher is blocked in a send on a full queue holding the
    mutex, every worker is blocked in [mu.Lock()], and the monitor has
    nothing to read. *)
Definition stuck (s : State) : bool :=
  match crashed s, dpc s, mu s, checkCh s with
  | None, DSend r c, Some TDisp, [] =>
      match chans s !! c with
      | Some ch =>
          negb (cclosed ch) && negb (length (cbuf ch) <? ccap ch)
          && forallb (λ w, match w_pc w with WTimerLock => true | _ => false end)
               (workers s)
      | None => false
      end
  | _, _, _, _ => false
  end.

(** The claim of the specification read as a guarantee of progress: a
    request that has been read can always still be executed. *)
Definition every_read_request_is_executed (inp : list Request) : Prop :=
  ∀ s, reachable inp s → ∀ r, r ∈ consumed s →
       ∃ sched s', run sched s = Some s' ∧ r ∈ executed s'.

(** ** The throttle *)

(** The claim of the specification: after every call for a delay-flagged
    request, the seed included, the worker lets a full [delay] pass
    before its next call. *)
Definition throttled_from_seed (es : list SinkEvent) : Prop :=
  ∀ j e1 e2, es !! j = Some e1 → es !! S j = Some e2 →
             NeedsDelay (ev_req e1) = true → ev_at e1 + delay ≤ ev_at e2.

(** Two delay-flagged requests for one key; the second is routed to the
    queue before the worker starts. *)
Definition pairK : list Request :=
  [mkRequest "K" "a" true 0; mkRequest "K" "b" true 1].

Definition pairK_schedule : list Label := disp 7 ++ disp 5 ++ work 0 7.

(** Scenario C cut to three requests, the worker throttled after "b". *)
Definition tripleK : list Request :=
  [mkRequest "K" "a" true 0; mkRequest "K" "b" true 1;
   mkRequest "K" "c" true 2].

Definition tripleK_schedule : list Label :=
  disp 7 ++ disp 5 ++ disp 5 ++ work 0 7 ++ work 0 2 ++ ticks 100
  ++ work 0 2 ++ work 0 3.

(** ** Idle expiry *)






(** Two delay-flagged requests for "K" at time 0 and a third request
    150 ms later.  The worker executes "a" and "b" at time 0, sleeps the
    throttle's 100 ms, and arms its idle timer only then. *)
Definition lateK : list Request :=
  [mkRequest "K" "a" true 0; mkRequest "K" "b" true 1;
   mkRequest "K" "c" false 2].

Definition lateK_schedule : list Label :=
  disp 7 ++ disp 5 ++ work 0 7 ++ work 0 2 ++ ticks 100 ++ work 0 2 ++ ticks 50.

Definition lateK_150 : State := after lateK_schedule lateK.

(** ** Flags, seeds and the holder of the mutex *)

(** The request the dispatcher holds after its branch on the delay flag
    (main.go:44), with the value of the flag on that branch. *)
Definition dflag (p : DPc) : option (Request * bool) :=
  match p with
  | DMake r | DSendSeed r _ | DUnlockSpawn r _ | DSpawn r _ => Some (r, true)
  | DUnlockDirect r | DCall r | DCallSleep r _ => Some (r, false)
  | _ => None
  end.

(** The seed has been sent and its worker is not spawned yet. *)
Definition seeded (p : DPc) : option (Request * nat) :=
  match p with
  | DUnlockSpawn r c | DSpawn r c => Some (r, c)
  | _ => None
  end.

(** The worker has not called the sink yet. *)
Definition unstarted (p : WPc) : bool :=
  match p with
  | WRecvSeed | WCallSeed _ => true
  | _ => false
  end.

(** The worker found [len(ch) > 0] under the lock. *)
Definition refilled (p : WPc) : bool :=
  match p with
  | WTimerReset | WTimerUnlock => true
  | _ => false
  end.

Record InvFlow (s : State) : Prop := {
  fl_flag : ∀ r b, dflag (dpc s) = Some (r, b) → NeedsDelay r = b;
  fl_fresh : ∀ r c, dpc s = DSendSeed r c → buf_at (chans s) c = [];
  fl_seed : ∀ r c, seeded (dpc s) = Some (r, c) →
      ∃ rest, buf_at (chans s) c = r :: rest;
  fl_first : ∀ i w, workers s !! i = Some w → w_pc w = WRecvSeed →
      ∃ r rest, buf_at (chans s) i = r :: rest ∧ NeedsDelay r = true;
  fl_held : ∀ i w r, workers s !! i = Some w → w_pc w = WCallSeed r →
      NeedsDelay r = true;
  fl_len : ∀ c ch, chans s !! c = Some ch → length (cbuf ch) ≤ queueCap;
  fl_more : ∀ i w, workers s !! i = Some w → refilled (w_pc w) = true →
      buf_at (chans s) i ≠ [];
  fl_closed : ∀ i w, workers s !! i = Some w → closedpc (w_pc w) = true →
      ∃ ch, chans s !! i = Some ch ∧ cclosed ch = true;
  fl_mu_d : mu s = Some TDisp → dlocked (dpc s) = true;
  fl_mu_w : ∀ i, mu s = Some (TWorker i) →
      ∃ w, workers s !! i = Some w ∧ wlocked (w_pc w) = true
}.

(** Who calls the sink for which requests. *)
Record InvSink (s : State) : Prop := {
  sk_disp : ∀ e, e ∈ sink s → ev_by e = TDisp → NeedsDelay (ev_req e) = false;
  sk_work : ∀ e i, e ∈ sink s → ev_by e = TWorker i →
      ∃ w, workers s !! i = Some w ∧ UID (ev_req e) = w_uid w;
  sk_first : ∀ i e es, wlog i s = e :: es → NeedsDelay (ev_req e) = true;
  sk_started : ∀ i w, workers s !! i = Some w → unstarted (w_pc w) = false →
      wlog i s ≠ []
}.

(** ** Streams of one key *)

(** The requests of a stream whose ids count up from 0. *)
Definition numbered (inp : list Request) : Prop :=
  ∀ j r, inp !! j = Some r → id r = Z.of_nat j.

(** ** Halting *)

(** No goroutine can take a step, now or after any amount of time. *)
Definition halted (s : State) : Prop :=
  ∀ n l, l ≠ Tick → run (ticks n ++ [l]) s = None.

(** The dispatcher is blocked in [ch <- req] (main.go:39) on a full queue,
    holding the mutex; the queue's worker is blocked in [mu.Lock()]
    (main.go:100); every other worker has returned or is blocked in
    [mu.Lock()] too, and the monitor has nothing to read. *)
Definition deadlock (s : State) : Prop :=
  ∃ r c ch w,
    dpc s = DSend r c ∧ mu s = Some TDisp
    ∧ chans s !! c = Some ch ∧ cclosed ch = false
    ∧ length (cbuf ch) = ccap ch
    ∧ workers s !! c = Some w ∧ w_uid w = UID r ∧ w_pc w = WTimerLock
    ∧ checkCh s = []
    ∧ ∀ i w', workers s !! i = Some w' →
        w_pc w' = WTimerLock ∨ w_pc w' = WDone.

(** ** The test: the main goroutine and the end of the program *)

(** [externalCh = make(chan Request, 100)] (main.go:25). *)
Definition externalCap : nat := 100.

(** [time.Sleep(10000 * time.Second)] of the test, in milliseconds. *)
Definition linger : nat := 100 * 100 * 1000.

(** The main goroutine of [Test_userDelayer] (the package's test): after
    [go processor()] it runs [simulateRequests] (main.go:145-158), sleeps,
    and returns, which ends the program. *)
Inductive PPc :=
| PLoop (i : nat)                     (* 146-150: i < count, draw, payload *)
| PSend (i : nat) (r : Request)       (* 152: externalCh <- Request{...} *)
| PSleep (i : nat) (wake : nat)       (* 155: inside time.Sleep *)
| PClose                              (* 157: close(externalCh) *)
| PLinger (wake : nat)                (* test: inside time.Sleep(10000 s) *)
| PExit.                              (* the test has returned *)

(** The program under test.  [h_draws] are the values of [rand.Intn(100)]
    still to be drawn, one per request, so the count is their number at
    the start.  In [h_core] the field [externalCh] is the buffer of the
    channel, and [h_closed] says whether the channel has been closed. *)
Record Harness := mkHarness {
  h_draws : list nat;
  h_ppc : PPc;
  h_closed : bool;
  h_core : State
}.

Definition hinit (draws : list nat) : Harness :=
  mkHarness draws (PLoop 0) false (init []).

Definition set_core (s : State) (h : Harness) : Harness :=
  mkHarness (h_draws h) (h_ppc h) (h_closed h) s.
Definition set_ppc (p : PPc) (h : Harness) : Harness :=
  mkHarness (h_draws h) p (h_closed h) (h_core h).

(** [externalCh <- r]: blocks while the buffer is full. *)
Definition send_external (r : Request) (s : State) : option State :=
  if length (externalCh s) <? externalCap then
    Some (mkState (now s) (externalCh s ++ [r]) (consumed s) (mu s)
            (activeDelayers s) (chans s) (checkCh s) (dpc s) (workers s)
            (nextId s) (accepted s) (crashed s) (sink s))
  else None.

(** One statement of the main goroutine.  [rnd] is what [rand.Intn(200)]
    returns if the statement draws it. *)
Definition producer (rnd : nat) (h : Harness) : option Harness :=
  let s := h_core h in
  match h_ppc h with
  | PLoop i =>
      match h_draws h with
      | [] => Some (set_ppc PClose h)
      | d :: rest =>
          Some (mkHarness rest
                  (PSend i (mkRequest "user1" (task_payload i) (d =? 0)
                              (Z.of_nat i)))
                  (h_closed h) s)
      end
  | PSend i r =>
      if h_closed h then Some (set_core (set_crashed SendOnClosed s) h)
      else (λ s', set_ppc (PSleep i (now s + rnd mod 200)) (set_core s' h))
             <$> send_external r s
  | PSleep i wake =>
      if wake <=? now s then Some (set_ppc (PLoop (S i)) h) else None
  | PClose =>
      if h_closed h then Some (set_core (set_crashed CloseOfClosed s) h)
      else Some (mkHarness (h_draws h) (PLinger (now s + linger)) true s)
  | PLinger wake =>
      if wake <=? now s then Some (set_ppc PExit h) else None
  | PExit => None
  end.

Inductive HLabel :=
| HProd (rnd : nat)      (* the main goroutine moves *)
| HCore (l : Label).     (* time passes, or another goroutine moves *)

(** [for req := range externalCh] (main.go:33) blocks while the channel is
    empty and not closed. *)
Definition recv_blocked (l : Label) (h : Harness) : bool :=
  match l, dpc (h_core h), externalCh (h_core h), h_closed h with
  | Disp _, DRecv, [], false => true
  | _, _, _, _ => false
  end.

(** Nothing moves after a panic or after the test has returned. *)
Definition hstep (l : HLabel) (h : Harness) : option Harness :=
  match h_ppc h, crashed (h_core h) with
  | PExit, _ => None
  | _, Some _ => None
  | _, None =>
      match l with
      | HProd rnd => producer rnd h
      | HCore l =>
          if recv_blocked l h then None
          else (λ s', set_core s' h) <$> step l (h_core h)
      end
  end.

Fixpoint hrun (sched : list HLabel) (h : Harness) : option Harness :=
  match sched with
  | [] => Some h
  | l :: sched' => h' ← hstep l h; hrun sched' h'
  end.

Definition hreachable (draws : list nat) (h : Harness) : Prop :=
  ∃ sched, hrun sched (hinit draws) = Some h.

(** The requests the main goroutine has still to send, from request
    number [i] on. *)
Definition upcoming (i : nat) (draws : list nat) : list Request :=
  imap (λ j d, mkRequest "user1" (task_payload (i + j)) (d =? 0)
                 (Z.of_nat (i + j))) draws.

Definition unsent (h : Harness) : list Request :=
  match h_ppc h with
  | PLoop i => upcoming i (h_draws h)
  | PSend i r => r :: upcoming (S i) (h_draws h)
  | PSleep i _ => upcoming (S i) (h_draws h)
  | _ => []
  end.

(** The state with the requests [u] appended to the stream. *)
Definition with_stream (u : list Request) (s : State) : State :=
  mkState (now s) (externalCh s ++ u) (consumed s) (mu s) (activeDelayers s)
    (chans s) (checkCh s) (dpc s) (workers s) (nextId s) (accepted s)
    (crashed s) (sink s).

(** The state of the program in which the whole stream is available to
    the dispatcher from the start. *)
Definition abstract (h : Harness) : State := with_stream (unsent h) (h_core h).

(** The state an explicit schedule of the test leads to. *)
Definition hafter (sched : list HLabel) (draws : list nat) : Harness :=
  default (hinit draws) (hrun sched (hinit draws)).

(** The test with two requests, the first one delay-flagged: the main
    goroutine sends both, then the rest of the program runs scenario B up
    to the worker's return. *)
Definition testB_schedule : list HLabel :=
  replicate 6 (HProd 0)
  ++ (HCore <$> disp 7 ++ work 0 4 ++ ticks 10 ++ disp 5 ++ work 0 6
                ++ [Mon; Mon] ++ ticks 100 ++ fire 0 ++ work 0 6).

Definition testB : Harness := hafter testB_schedule [0; 1].

(** What relates the program under test to the program that has the
    whole stream from the start. *)
Record HInv (draws : list nat) (h : Harness) : Prop := {
  hi_abs : reachable (simulateRequests draws) (abstract h);
  hi_closed : h_closed h = true →
      match h_ppc h with PLinger _ | PExit => True | _ => False end;
  hi_done : dpc (h_core h) = DDone → h_closed h = true;
  hi_cap : length (externalCh (h_core h)) ≤ externalCap
}.

(** * Proofs: invariants of the reachable states *)

(** ** Case analysis of a step *)

Arguments mu_unlock : simpl never.

Lemma mu_unlock_held s t : mu s = Some t → mu_unlock s = set_mu None s.
Proof. unfold mu_unlock. by intros ->. Qed.

Ltac case_hyp :=
  match goal with
  | H : context [match ?x with _ => _ end] |- _ => destruct x eqn:?
  end.

(** Splits [H : step l s = Some s'] into one goal per branch of the
    goroutines' code, with [s'] replaced by the state the branch builds. *)
Ltac step_cases H :=
  match type of H with
  | step ?l ?s = Some ?s' =>
      unfold step in H;
      destruct (crashed s) eqn:Hcrash; [discriminate H|];
      destruct l as [|rnd|i tc rnd|]; simpl in H;
      [ | unfold processor in H; destruct (dpc s) eqn:Hdpc
        | unfold userDelayer in H;
          destruct (workers s !! i) as [w|] eqn:Hw; simpl in H; [|discriminate H];
          destruct (w_pc w) eqn:Hwpc
        | unfold monitor in H ];
      unfold mu_lock, send_on, close_on, callService, chan_send,
        chan_recv, chan_close in H;
      repeat (first [ case_hyp | progress simplify_option_eq ])
  end.

(** Lookups in a goroutine list after one goroutine moved or was spawned. *)
Ltac lookup_cases :=
  repeat match goal with
  | H : <[_:=_]> _ !! _ = Some _ |- _ =>
      apply list_lookup_insert_Some in H;
      destruct H as [(? & ? & ?)|(? & H)]; simplify_eq
  | H : (_ ++ [_]) !! _ = Some _ |- _ =>
      apply lookup_snoc_Some in H;
      destruct H as [(? & H)|(? & ?)]; simplify_eq
  end.

(** What [InvLock] says about the goroutine that moves. *)
Ltac lock_facts Hd HW :=
  try match goal with
  | Hp : dpc ?s = _ |- _ =>
      let F := fresh "Fd" in pose proof Hd as F; rewrite Hp in F; simpl in F
  end;
  try match goal with
  | Hw : workers ?s !! ?i = Some ?w, Hp : w_pc ?w = _ |- _ =>
      let F := fresh "Fw" in pose proof (HW i w Hw) as F; rewrite Hp in F; simpl in F
  end.

Ltac unlock_held Hd HW :=
  lock_facts Hd HW;
  try match goal with
  | |- context [mu_unlock ?s] => rewrite (mu_unlock_held s TDisp) by auto
  end;
  try match goal with
  | Hw : workers ?s !! ?i = Some _ |- context [mu_unlock ?s] =>
      rewrite (mu_unlock_held s (TWorker i)) by auto
  end.

(** ** The mutex protects the critical sections *)

Lemma InvLock_init inp : InvLock (init inp).
Proof. split; [done|]. intros i w Hw. done. Qed.

Lemma InvLock_step l s s' : InvLock s → step l s = Some s' → InvLock s'.
Proof.
  intros Hinv H. step_cases H.
  all: destruct Hinv as [Hd HW]; unlock_held Hd HW.
  all: split; simpl.
  all: try (intros j wj Hj Hl; lookup_cases; simpl in *;
            try pose proof (HW _ _ Hj Hl)).
  all: try solve [intuition congruence].
Qed.

(** ** Workers, channels and the routing table *)

Lemma closedpc_inactive p : closedpc p = true → active p = true → False.
Proof. by destruct p. Qed.

(** The branches of a step that the invariants exclude: a receive that
    finds the channel closed, a send on or a close of a closed channel. *)
Ltac refute HS :=
  exfalso;
  first
  [ match goal with
    | Hw : workers ?s !! ?i = Some ?w, Hp : w_pc ?w = _ |- _ =>
        let F := fresh in
        pose proof (st_unreach _ HS _ _ Hw) as F; rewrite Hp in F; discriminate F
    end
  | match goal with
    | Hw : workers ?s !! ?i = Some ?w, Hp : w_pc ?w = _,
      Hc : chans ?s !! w_ch ?w = Some ?ch, Hcl : cclosed ?ch = true |- _ =>
        let w' := fresh in let F1 := fresh in let F2 := fresh in
        rewrite (st_ch _ HS _ _ Hw) in Hc;
        destruct (st_closed _ HS _ _ Hc Hcl) as (w' & F1 & F2);
        rewrite Hw in F1; injection F1 as <-; rewrite Hp in F2; discriminate F2
    end
  | match goal with
    | Hp : dpc ?s = DSend ?r ?c,
      Hc : chans ?s !! ?c = Some ?ch, Hcl : cclosed ?ch = true |- _ =>
        let w' := fresh in let w'' := fresh in let r' := fresh in
        let F1 := fresh in let F2 := fresh in let F3 := fresh in let F4 := fresh in
        destruct (st_closed _ HS _ _ Hc Hcl) as (w' & F1 & F2);
        pose proof (st_view _ HS (UID r) (Some c)) as F3;
        rewrite Hp in F3; specialize (F3 eq_refl);
        destruct (st_entry _ HS _ _ F3) as [(w'' & F4 & _ & F5)|(r' & F4 & _)];
        [ rewrite F1 in F4; injection F4 as <-; by eapply closedpc_inactive
        | rewrite Hp in F4; discriminate F4 ]
    end
  | match goal with
    | Hp : dpc ?s = DSendSeed ?r ?c,
      Hc : chans ?s !! ?c = Some ?ch, Hcl : cclosed ?ch = true |- _ =>
        let w' := fresh in let F1 := fresh in let F2 := fresh in let F3 := fresh in
        destruct (st_closed _ HS _ _ Hc Hcl) as (w' & F1 & F2);
        apply lookup_lt_Some in F1;
        pose proof (st_spawn _ HS r c) as F3; rewrite Hp in F3;
        destruct (F3 eq_refl) as [F3' _]; lia
    end ].

(** [step_cases] without the excluded branches and with [mu.Unlock()]
    resolved. *)
Ltac step_cases_inv H HL HS :=
  step_cases H;
  try solve [refute HS];
  let Hd := fresh "Hd" in let HW := fresh "HW" in
  pose proof HL as [Hd HW]; unlock_held Hd HW; clear Hd HW.
Ltac thread_facts HS :=
  try match goal with
  | Hw : workers ?s !! ?i = Some ?w, Hp : w_pc ?w = _ |- _ =>
      let Fch := fresh "Fch" in let Fact := fresh "Fact" in
      pose proof (st_ch _ HS _ _ Hw) as Fch; try rewrite Fch in *;
      pose proof (st_active _ HS _ _ Hw) as Fact; rewrite Hp in Fact;
      simpl in Fact; try specialize (Fact eq_refl)
  end;
  try match goal with
  | Hp : dpc ?s = _ |- _ =>
      let Fsp := fresh "Fsp" in let Fv := fresh "Fv" in let Flen := fresh "Flen" in
      pose proof (st_spawn _ HS) as Fsp; rewrite Hp in Fsp; simpl in Fsp;
      pose proof (st_view _ HS) as Fv; rewrite Hp in Fv; simpl in Fv;
      pose proof (st_len _ HS) as Flen; rewrite Hp in Flen; simpl in Flen
  end.

Lemma entry_upd (ws : list Worker) i w w' c k :
  ws !! i = Some w → w_uid w' = w_uid w →
  (active (w_pc w) = true → active (w_pc w') = true) →
  (∃ w0, ws !! c = Some w0 ∧ w_uid w0 = k ∧ active (w_pc w0) = true) →
  ∃ w0, <[i:=w']> ws !! c = Some w0 ∧ w_uid w0 = k ∧ active (w_pc w0) = true.
Proof.
  intros Hw Hu Ha (w0 & Hw0 & Hk & Ha0). destruct (decide (i = c)) as [->|Hne].
  - exists w'. rewrite list_lookup_insert_eq by (by eapply lookup_lt_Some).
    simplify_eq. auto with congruence.
  - exists w0. by rewrite list_lookup_insert_ne.
Qed.

Lemma entry_snoc (ws : list Worker) w' c k :
  (∃ w0, ws !! c = Some w0 ∧ w_uid w0 = k ∧ active (w_pc w0) = true) →
  ∃ w0, (ws ++ [w']) !! c = Some w0 ∧ w_uid w0 = k ∧ active (w_pc w0) = true.
Proof. intros (w0 & Hw0 & ?). exists w0. by erewrite lookup_app_l_Some. Qed.

Lemma exists_upd (P : Worker → Prop) (ws : list Worker) i w w' c :
  ws !! i = Some w → (P w → P w') →
  (∃ w0, ws !! c = Some w0 ∧ P w0) → ∃ w0, <[i:=w']> ws !! c = Some w0 ∧ P w0.
Proof.
  intros Hw HP (w0 & Hw0 & HP0). destruct (decide (i = c)) as [->|Hne].
  - exists w'. rewrite list_lookup_insert_eq by (by eapply lookup_lt_Some).
    simplify_eq. auto.
  - exists w0. by rewrite list_lookup_insert_ne.
Qed.

Lemma exists_snoc (P : Worker → Prop) (ws : list Worker) w' c :
  (∃ w0, ws !! c = Some w0 ∧ P w0) → ∃ w0, (ws ++ [w']) !! c = Some w0 ∧ P w0.
Proof. intros (w0 & Hw0 & ?). exists w0. by erewrite lookup_app_l_Some. Qed.

Ltac own_closed HS :=
  match goal with
  | Hc : chans ?s !! ?c = Some ?ch, Hcl : cclosed ?ch = true,
    Hw : workers ?s !! ?c = Some ?w, Hp : w_pc ?w = _ |- _ =>
      let Hx := fresh in
      destruct (st_closed _ HS _ _ Hc Hcl) as (? & ? & Hx);
      simplify_eq; rewrite Hp in Hx; done
  end.

Lemma emptied_active_locked p :
  emptied p = true → active p = true → wlocked p = true.
Proof. by destruct p. Qed.

Section step.
Context (l : Label) (s s' : State).
Context (HL : InvLock s) (HS : InvStruct s) (H : step l s = Some s').

Lemma st_ch_step i w : workers s' !! i = Some w → w_ch w = i.
Proof using HL HS H.
  revert i w. step_cases_inv H HL HS; thread_facts HS.
  all: simpl; intros j wj Hj; lookup_cases; simpl; eauto using st_ch.
  by destruct (Fsp r c eq_refl).
Qed.

Lemma st_len_step :
  length (chans s') = length (workers s') + (if spawn_of (dpc s') is Some _ then 1 else 0).
Proof using HL HS H.
  step_cases_inv H HL HS; thread_facts HS.
  all: simpl; rewrite ?length_insert, ?length_app; simpl; try done; try lia.
  all: try apply (st_len _ HS).
  all: case_match; simpl; lia.
Qed.

Lemma st_spawn_step r c : spawn_of (dpc s') = Some (r, c) →
    c = length (workers s') ∧ activeDelayers s' !! UID r = Some c.
Proof using HL HS H.
  revert r c. step_cases_inv H HL HS; thread_facts HS.
  all: simpl; intros r' c' Hsp; simplify_eq; try done; rewrite ?length_insert.
  all: try (by apply (st_spawn _ HS)).
  all: try (by apply Fsp).
  - split; [lia|by rewrite lookup_insert_eq].
  - destruct (st_spawn _ HS _ _ Hsp) as [-> Ht]. split; [done|].
    rewrite lookup_delete_ne; [done|]. intros Heq. rewrite Heq in Fact.
    apply lookup_lt_Some in Hw. simplify_eq. lia.
Qed.

Lemma st_entry_step k c : activeDelayers s' !! k = Some c →
    (∃ w, workers s' !! c = Some w ∧ w_uid w = k ∧ active (w_pc w) = true)
    ∨ (∃ r, spawn_of (dpc s') = Some (r, c) ∧ UID r = k).
Proof using HL HS H.
  revert k c. step_cases_inv H HL HS; thread_facts HS.
  all: simpl; intros k' c' Hk.
  all: try (by apply (st_entry _ HS)).
  all: try (destruct (st_entry _ HS _ _ Hk) as [Hl|(r0 & Hsp & Hu)];
    [ left; first [ done | by eapply entry_upd; [exact Hw|done|by rewrite Hwpc|done]
                  | by eapply entry_snoc ]
    | try (rewrite Hdpc in Hsp; simpl in Hsp; simplify_eq); by eauto ]).
  - destruct (decide (UID r = k')) as [<-|Hne].
    + rewrite lookup_insert_eq in Hk. simplify_eq. eauto.
    + rewrite lookup_insert_ne in Hk by done.
      destruct (st_entry _ HS _ _ Hk) as [Hl|(r0 & Hsp & Hu)]; [by left|].
      rewrite Hdpc in Hsp. done.
  - destruct (st_entry _ HS _ _ Hk) as [Hl|(r0 & Hsp & Hu)];
      [left; by eapply entry_snoc|].
    rewrite Hdpc in Hsp. simpl in Hsp. simplify_eq. left.
    destruct (Fsp r0 c' eq_refl) as [-> _]. eexists.
    rewrite lookup_app_r, Nat.sub_diag by done. done.
  - apply lookup_delete_Some in Hk as [Hne Hk].
    destruct (st_entry _ HS _ _ Hk) as [(w0 & Hw0 & Hu & Ha)|(r0 & Hsp & Hu)];
      [left|by eauto].
    exists w0. rewrite list_lookup_insert_ne; [done|]. intros <-. congruence.
Qed.

Lemma st_active_step i w : workers s' !! i = Some w → active (w_pc w) = true →
    activeDelayers s' !! w_uid w = Some i.
Proof using HL HS H.
  revert i w. step_cases_inv H HL HS; thread_facts HS.
  all: simpl; intros j wj Hj Ha; lookup_cases; simpl in *; try done.
  all: try (by apply (st_active _ HS)).
  - pose proof (st_active _ HS _ _ Hj Ha) as Hwj.
    rewrite lookup_insert_ne; [done|]. intros Heq.
    rewrite <-Heq, (Fv _ _ eq_refl) in Hwj. done.
  - destruct (Fsp r c eq_refl) as [<- ?]. done.
  - pose proof (st_active _ HS _ _ Hj Ha) as Hwj.
    rewrite lookup_delete_ne; [done|]. intros Heq. congruence.
Qed.

Lemma st_closed_step c ch : chans s' !! c = Some ch → cclosed ch = true →
    ∃ w, workers s' !! c = Some w ∧ closedpc (w_pc w) = true.
Proof using HL HS H.
  revert c ch. step_cases_inv H HL HS; thread_facts HS.
  all: simpl; intros c' ch' Hc Hcl; lookup_cases; simpl in *; try done.
  all: try (by apply (st_closed _ HS _ ch')).
  all: try congruence.
  all: try (by eapply exists_snoc, (st_closed _ HS _ ch')).
  all: try (by eapply (exists_upd (λ w, closedpc (w_pc w) = true));
              [exact Hw|by rewrite Hwpc|by eapply (st_closed _ HS _ ch')]).
  all: try (by own_closed HS).
  eexists. by rewrite list_lookup_insert_eq by (by eapply lookup_lt_Some).
Qed.

Lemma st_unreach_step i w : workers s' !! i = Some w → unreach (w_pc w) = false.
Proof using HL HS H.
  revert i w. step_cases_inv H HL HS; thread_facts HS.
  all: simpl; intros j wj Hj; lookup_cases; simpl in *; try done.
  all: try (by apply (st_unreach _ HS _ _ Hj)).
Qed.

Lemma st_empty_step i w ch : workers s' !! i = Some w → chans s' !! i = Some ch →
    emptied (w_pc w) = true → cbuf ch = [].
Proof using HL HS H.
  revert i w ch. step_cases_inv H HL HS; thread_facts HS.
  all: simpl; intros j wj chj Hj Hc He; lookup_cases; simpl in *; try done.
  all: try (by eapply (st_empty _ HS _ _ _ Hj)).
  all: try (by eapply (st_empty _ HS _ _ _ Hw); rewrite ?Hwpc).
  - exfalso. pose proof (Fv _ _ eq_refl) as Ht.
    destruct (st_entry _ HS _ _ Ht) as [(w0 & Hw0 & Hu & Ha)|(r0 & Hsp & Hu)];
      [|by rewrite Hdpc in Hsp].
    simplify_eq. destruct HL as [_ HW].
    pose proof (HW _ _ Hj (emptied_active_locked _ He Ha)).
    specialize (Fd eq_refl). congruence.
  - exfalso. apply lookup_lt_Some in Hj. pose proof (Fsp _ _ eq_refl). lia.
  - by destruct (cbuf _).
Qed.

Lemma st_view_step k o : dview (dpc s') = Some (k, o) → activeDelayers s' !! k = o.
Proof using HL HS H.
  revert k o. step_cases_inv H HL HS; thread_facts HS.
  all: simpl; intros k' o' Hv; simplify_eq; try done.
  all: try (by apply (st_view _ HS)).
  all: try (by apply Fv).
  pose proof (st_view _ HS _ _ Hv) as Ht. destruct o' as [c|].
  - exfalso. destruct HL as [Hd HW]. pose proof (HW _ _ Hw) as Hm.
    rewrite Hwpc in Hm. specialize (Hm eq_refl).
    destruct (dpc s); simplify_eq. specialize (Hd eq_refl). congruence.
  - apply lookup_delete_None. by right.
Qed.

Lemma st_cap_step c ch : chans s' !! c = Some ch → ccap ch = queueCap.
Proof using HL HS H.
  revert c ch. step_cases_inv H HL HS.
  all: simpl; intros c' ch' Hc; lookup_cases; simpl in *; try done.
  all: try (by eapply (st_cap _ HS)).
Qed.

Lemma st_crash_step : crashed s' = None ∨ crashed s' = Some MonitorAbort.
Proof using HL HS H.
  step_cases_inv H HL HS; simpl; auto.
Qed.

Lemma InvStruct_step : InvStruct s'.
Proof using HL HS H.
  constructor; eauto using st_ch_step, st_len_step, st_spawn_step, st_entry_step,
    st_active_step, st_closed_step, st_unreach_step, st_empty_step, st_view_step,
    st_cap_step, st_crash_step.
Qed.
End step.

Lemma InvStruct_init inp : InvStruct (init inp).
Proof. constructor; simpl; try done; auto. Qed.

(** ** All reachable states satisfy the structural invariants *)

Lemma Inv_init inp : Inv (init inp).
Proof. split; [apply InvLock_init|apply InvStruct_init]. Qed.

Lemma Inv_step l s s' : Inv s → step l s = Some s' → Inv s'.
Proof.
  intros [HL HS] H. split; [by eapply InvLock_step|by eapply InvStruct_step].
Qed.

Lemma run_app sched1 sched2 s :
  run (sched1 ++ sched2) s = s' ← run sched1 s; run sched2 s'.
Proof.
  revert s. induction sched1 as [|l sched1 IH]; intros s; simpl; [done|].
  destruct (step l s) as [s1|]; simpl; [apply IH|done].
Qed.

Lemma run_snoc sched l s s' :
  run (sched ++ [l]) s = Some s' ↔ ∃ s1, run sched s = Some s1 ∧ step l s1 = Some s'.
Proof.
  rewrite run_app. split.
  - destruct (run sched s) as [s1|]; simpl; [|done].
    destruct (step l s1) as [s2|] eqn:Hs; simpl; [|done]. intros ?; simplify_eq. eauto.
  - intros (s1 & -> & Hs). simpl. by rewrite Hs.
Qed.

(** Induction over the reachable states. *)
Lemma reachable_induction inp (P : State → Prop) :
  P (init inp) →
  (∀ l s s', reachable inp s → P s → step l s = Some s' → P s') →
  ∀ s, reachable inp s → P s.
Proof.
  intros H0 Hstep s [sched Hs]. revert s Hs.
  induction sched as [|l sched IH] using rev_ind; intros s Hs.
  - simpl in Hs. by simplify_eq.
  - apply run_snoc in Hs as (s1 & Hs1 & Hl).
    eapply Hstep; [by exists sched|by apply IH|done].
Qed.

Lemma reachable_step inp l s s' :
  reachable inp s → step l s = Some s' → reachable inp s'.
Proof. intros [sched Hs] Hl. exists (sched ++ [l]). apply run_snoc. eauto. Qed.


Lemma Inv_reachable inp s : reachable inp s → Inv s.
Proof.
  apply (reachable_induction inp); [apply Inv_init|]. intros; by eapply Inv_step.
Qed.

(** The routing table gives different keys different channels, and a
    channel in the table belongs to an active worker with that key. *)
Lemma entry_worker s k i w :
  InvStruct s → activeDelayers s !! k = Some i → workers s !! i = Some w →
  w_uid w = k ∧ active (w_pc w) = true.
Proof.
  intros HS Hk Hw.
  destruct (st_entry _ HS _ _ Hk) as [(w0 & Hw0 & Hu & Ha)|(r0 & Hsp & Hu)].
  - by simplify_eq.
  - apply (st_spawn _ HS) in Hsp as [-> _]. apply lookup_lt_Some in Hw. lia.
Qed.

Lemma table_inj s k1 k2 c :
  InvStruct s → activeDelayers s !! k1 = Some c → activeDelayers s !! k2 = Some c →
  k1 = k2.
Proof.
  intros HS H1 H2.
  destruct (st_entry _ HS _ _ H1) as [(w1 & Hw1 & Hu1 & _)|(r1 & Hsp1 & Hu1)];
  destruct (st_entry _ HS _ _ H2) as [(w2 & Hw2 & Hu2 & _)|(r2 & Hsp2 & Hu2)].
  - by simplify_eq.
  - apply (st_spawn _ HS) in Hsp2 as [-> _]. apply lookup_lt_Some in Hw1. lia.
  - apply (st_spawn _ HS) in Hsp1 as [-> _]. apply lookup_lt_Some in Hw2. lia.
  - by simplify_eq.
Qed.

Lemma entry_lt s k c :
  InvStruct s → activeDelayers s !! k = Some c → c < length (chans s).
Proof.
  intros HS Hk. rewrite (st_len _ HS).
  destruct (st_entry _ HS _ _ Hk) as [(w1 & Hw1 & _)|(r1 & Hsp1 & _)].
  - apply lookup_lt_Some in Hw1. lia.
  - rewrite Hsp1. apply (st_spawn _ HS) in Hsp1 as [-> _]. lia.
Qed.

(** ** Requests in flight, per key *)

Lemma for_key_app k l1 l2 : for_key k (l1 ++ l2) = for_key k l1 ++ for_key k l2.
Proof. apply filter_app. Qed.

Lemma for_key_one k r : UID r = k → for_key k [r] = [r].
Proof. intros Hk. unfold for_key. rewrite filter_cons_True by done. done. Qed.

Lemma for_key_other k r : UID r ≠ k → for_key k [r] = [].
Proof. intros Hk. unfold for_key. rewrite filter_cons_False by done. done. Qed.

Lemma held_at_upd ws i w w' c :
  ws !! i = Some w → wheld (w_pc w') = wheld (w_pc w) →
  held_at (<[i:=w']> ws) c = held_at ws c.
Proof.
  intros Hw Heq. unfold held_at. destruct (decide (i = c)) as [->|Hne].
  - rewrite list_lookup_insert_eq by (by eapply lookup_lt_Some). by rewrite Hw.
  - by rewrite list_lookup_insert_ne.
Qed.

Lemma held_at_upd_eq ws i w w' :
  ws !! i = Some w → held_at (<[i:=w']> ws) i = wheld (w_pc w').
Proof.
  intros Hw. unfold held_at.
  by rewrite list_lookup_insert_eq by (by eapply lookup_lt_Some).
Qed.

Lemma held_at_upd_ne ws i w' c : i ≠ c → held_at (<[i:=w']> ws) c = held_at ws c.
Proof. intros Hne. unfold held_at. by rewrite list_lookup_insert_ne. Qed.

Lemma held_at_snoc ws w' c :
  wheld (w_pc w') = [] → held_at (ws ++ [w']) c = held_at ws c.
Proof.
  intros Hw. unfold held_at. destruct (decide (c < length ws)).
  - by rewrite lookup_app_l.
  - rewrite (lookup_ge_None_2 ws) by lia. rewrite lookup_app_r by lia.
    destruct (c - length ws) as [|m]; simpl; done.
Qed.

Lemma buf_at_upd_eq cs c ch ch' :
  cs !! c = Some ch → buf_at (<[c:=ch']> cs) c = cbuf ch'.
Proof.
  intros Hc. unfold buf_at.
  by rewrite list_lookup_insert_eq by (by eapply lookup_lt_Some).
Qed.

Lemma buf_at_upd_ne cs i c ch' : i ≠ c → buf_at (<[i:=ch']> cs) c = buf_at cs c.
Proof. intros Hne. unfold buf_at. by rewrite list_lookup_insert_ne. Qed.

Lemma buf_at_upd cs i c ch ch' :
  cs !! i = Some ch → cbuf ch' = cbuf ch → buf_at (<[i:=ch']> cs) c = buf_at cs c.
Proof.
  intros Hc Heq. destruct (decide (i = c)) as [->|Hne].
  - erewrite buf_at_upd_eq by done. unfold buf_at. by rewrite Hc.
  - by apply buf_at_upd_ne.
Qed.

Lemma buf_at_lookup cs c ch : cs !! c = Some ch → buf_at cs c = cbuf ch.
Proof. unfold buf_at. by intros ->. Qed.

Lemma held_at_lookup ws c w : ws !! c = Some w → held_at ws c = wheld (w_pc w).
Proof. unfold held_at. by intros ->. Qed.

Lemma buf_at_snoc cs ch' c : cbuf ch' = [] → buf_at (cs ++ [ch']) c = buf_at cs c.
Proof.
  intros Hw. unfold buf_at. destruct (decide (c < length cs)).
  - by rewrite lookup_app_l.
  - rewrite (lookup_ge_None_2 cs) by lia. rewrite lookup_app_r by lia.
    destruct (c - length cs) as [|m]; simpl; done.
Qed.

(** Preservation of [InvFifo] by every step. *)
Section fifo_step.
Context (inp : list Request) (l : Label) (s s' : State).
Context (HL : InvLock s) (HS : InvStruct s) (HF : InvFifo inp s).
Context (H : step l s = Some s').

Lemma ff_order_step k :
  for_key k (executed s') ++ pending k s' = for_key k (consumed s').
Proof using HL HS HF H.
  pose proof (ff_order _ _ HF k) as Hk. revert Hk.
  unfold pending, queued, executed.
  step_cases_inv H HL HS; thread_facts HS.
  all: simpl; rewrite ?fmap_app, ?for_key_app; simpl; try done.
  all: try rewrite Hdpc; simpl.
  all: try (destruct (activeDelayers s !! k) as [c'|] eqn:Htk; simpl;
            try (erewrite !held_at_upd by (done || by rewrite Hwpc)); done).
  - (* DRecv *) intros <-. by rewrite !app_nil_r, app_assoc.
  - (* DSend *) intros Hk. pose proof (Fv _ _ eq_refl) as Ht.
    destruct (decide (UID r = k)) as [<-|Hne].
    + rewrite Ht in Hk |- *. erewrite buf_at_upd_eq by done. simpl.
      erewrite for_key_one, buf_at_lookup in Hk by done.
      rewrite <-Hk. by rewrite app_nil_r, !app_assoc.
    + rewrite for_key_other in Hk by done.
      destruct (activeDelayers s !! k) as [c'|] eqn:Htk; [|done].
      rewrite buf_at_upd_ne; [done|]. intros <-. by eapply Hne, table_inj.
  - (* DMake *) intros Hk. destruct (decide (UID r = k)) as [<-|Hne].
    + rewrite lookup_insert_eq. rewrite (Fv _ _ eq_refl) in Hk.
      rewrite buf_at_snoc by done. unfold held_at, buf_at.
      rewrite !lookup_ge_None_2 by lia. done.
    + rewrite lookup_insert_ne by done.
      destruct (activeDelayers s !! k) as [c'|] eqn:Htk; [|done].
      by rewrite buf_at_snoc.
  - (* DSendSeed *) intros Hk. destruct (Fsp _ _ eq_refl) as [Hc Ht].
    destruct (decide (UID r = k)) as [<-|Hne].
    + rewrite Ht in Hk |- *. erewrite buf_at_upd_eq by done. simpl.
      erewrite for_key_one, buf_at_lookup in Hk by done.
      rewrite <-Hk. by rewrite app_nil_r, !app_assoc.
    + rewrite for_key_other in Hk by done.
      destruct (activeDelayers s !! k) as [c'|] eqn:Htk; [|done].
      rewrite buf_at_upd_ne; [done|]. intros <-. by eapply Hne, table_inj.
  - (* DSpawn *) intros Hk.
    destruct (activeDelayers s !! k) as [c'|] eqn:Htk; [|done].
    by rewrite held_at_snoc.
  - (* DCall *) intros Hk. destruct (decide (UID r = k)) as [<-|Hne].
    + rewrite (Fv _ _ eq_refl) in Hk |- *. rewrite <-Hk. simpl.
      by rewrite app_nil_r.
    + rewrite for_key_other in Hk |- * by done. simpl in *.
      by rewrite app_nil_r.
  - (* WRecvSeed *) intros Hk.
    destruct (activeDelayers s !! k) as [c'|] eqn:Htk; [|done].
    destruct (decide (i = c')) as [<-|Hne].
    + erewrite held_at_upd_eq, buf_at_upd_eq by done. simpl.
      erewrite held_at_lookup, buf_at_lookup in Hk by done.
      rewrite Hwpc in Hk. simpl in Hk.
      match goal with Hb : cbuf _ = _ :: _ |- _ => by rewrite Hb in Hk end.
    + by rewrite held_at_upd_ne, buf_at_upd_ne.
  - (* WCallSeed *) intros Hk. pose proof (ff_held _ _ HF _ _ Hw) as Hu.
    rewrite Hwpc in Hu. simpl in Hu. rewrite Forall_singleton in Hu.
    destruct (decide (UID r = k)) as [<-|Hne].
    + rewrite for_key_one by done. rewrite Hu, Fact in Hk |- *.
      erewrite held_at_upd_eq by done. simpl.
      erewrite held_at_lookup in Hk by done. rewrite Hwpc in Hk. simpl in Hk.
      rewrite <-Hk. by rewrite <-!app_assoc.
    + rewrite for_key_other, app_nil_r by done.
      destruct (activeDelayers s !! k) as [c'|] eqn:Htk; [|done].
      rewrite held_at_upd_ne; [done|]. intros <-.
      destruct (entry_worker _ _ _ _ HS Htk Hw). congruence.
  - (* WSelect, receive *) intros Hk.
    destruct (activeDelayers s !! k) as [c'|] eqn:Htk; [|done].
    destruct (decide (i = c')) as [<-|Hne].
    + erewrite held_at_upd_eq, buf_at_upd_eq by done. simpl.
      erewrite held_at_lookup, buf_at_lookup in Hk by done.
      rewrite Hwpc in Hk. simpl in Hk.
      match goal with Hb : cbuf _ = _ :: _ |- _ => by rewrite Hb in Hk end.
    + by rewrite held_at_upd_ne, buf_at_upd_ne.
  - (* WCall *) intros Hk. pose proof (ff_held _ _ HF _ _ Hw) as Hu.
    rewrite Hwpc in Hu. simpl in Hu. rewrite Forall_singleton in Hu.
    destruct (decide (UID r = k)) as [<-|Hne].
    + rewrite for_key_one by done. rewrite Hu, Fact in Hk |- *.
      erewrite held_at_upd_eq by done. simpl.
      erewrite held_at_lookup in Hk by done. rewrite Hwpc in Hk. simpl in Hk.
      rewrite <-Hk. by rewrite <-!app_assoc.
    + rewrite for_key_other, app_nil_r by done.
      destruct (activeDelayers s !! k) as [c'|] eqn:Htk; [|done].
      rewrite held_at_upd_ne; [done|]. intros <-.
      destruct (entry_worker _ _ _ _ HS Htk Hw). congruence.
  - (* WDelete *) intros Hk. destruct (decide (w_uid w = k)) as [<-|Hne].
    + rewrite lookup_delete_eq. rewrite Fact in Hk.
      destruct (lookup_lt_is_Some_2 (chans s) i) as [ch Hch].
      { rewrite (st_len _ HS). apply lookup_lt_Some in Hw. lia. }
      erewrite held_at_lookup, buf_at_lookup in Hk by done.
      rewrite (st_empty _ HS _ _ _ Hw Hch), Hwpc in Hk by (by rewrite Hwpc).
      done.
    + rewrite lookup_delete_ne by done.
      destruct (activeDelayers s !! k) as [c'|] eqn:Htk; [|done].
      by erewrite held_at_upd by (done || by rewrite Hwpc).
  - (* WClose *) intros Hk.
    destruct (activeDelayers s !! k) as [c'|] eqn:Htk; [|done].
    erewrite held_at_upd by (done || by rewrite Hwpc).
    by erewrite buf_at_upd by done.
Qed.

Lemma ff_buf_step k c ch :
  activeDelayers s' !! k = Some c → chans s' !! c = Some ch →
  Forall (λ r, UID r = k) (cbuf ch).
Proof using HL HS HF H.
  revert k c ch. step_cases_inv H HL HS; thread_facts HS.
  all: simpl; intros k' c' ch' Hk Hc.
  all: try (by eapply (ff_buf _ _ HF)).
  - (* DSend *) lookup_cases; [|by eapply (ff_buf _ _ HF)]. simpl.
    apply Forall_app. split; [by eapply (ff_buf _ _ HF)|].
    apply Forall_singleton. eapply table_inj; [done| |done].
    by apply Fv.
  - (* DMake *) lookup_cases; [|by apply Forall_nil].
    destruct (decide (UID r = k')) as [<-|Hne].
    + rewrite lookup_insert_eq in Hk. simplify_eq. lia.
    + rewrite lookup_insert_ne in Hk by done. by eapply (ff_buf _ _ HF).
  - (* DSendSeed *) lookup_cases; [|by eapply (ff_buf _ _ HF)]. simpl.
    apply Forall_app. split; [by eapply (ff_buf _ _ HF)|].
    apply Forall_singleton. eapply table_inj; [done| |done].
    by apply Fsp.
  - (* WRecvSeed *) lookup_cases; [|by eapply (ff_buf _ _ HF)]. simpl.
    match goal with Hc : chans s !! _ = Some ?ch, Hb : cbuf ?ch = _ :: _ |- _ =>
      pose proof (ff_buf _ _ HF _ _ _ Hk Hc) as HF'; rewrite Hb in HF' end.
    by apply Forall_cons in HF' as [_ ?].
  - (* WSelect *) lookup_cases; [|by eapply (ff_buf _ _ HF)]. simpl.
    match goal with Hc : chans s !! _ = Some ?ch, Hb : cbuf ?ch = _ :: _ |- _ =>
      pose proof (ff_buf _ _ HF _ _ _ Hk Hc) as HF'; rewrite Hb in HF' end.
    by apply Forall_cons in HF' as [_ ?].
  - (* WDelete *) apply lookup_delete_Some in Hk as [_ Hk].
    by eapply (ff_buf _ _ HF).
  - (* WClose *) lookup_cases; simpl; eapply (ff_buf _ _ HF); eauto.
Qed.

Lemma ff_held_step i w :
  workers s' !! i = Some w → Forall (λ r, UID r = w_uid w) (wheld (w_pc w)).
Proof using HL HS HF H.
  revert i w. step_cases_inv H HL HS; thread_facts HS.
  all: simpl; intros j wj Hj; lookup_cases; simpl; try done.
  all: try (by eapply (ff_held _ _ HF)).
  all: try (by pose proof (ff_held _ _ HF _ _ Hw) as Hh; rewrite Hwpc in Hh).
  all: apply Forall_singleton.
  all: match goal with Hc : chans s !! _ = Some ?ch, Hb : cbuf ?ch = _ :: _ |- _ =>
      pose proof (ff_buf _ _ HF _ _ _ Fact Hc) as HF'; rewrite Hb in HF' end.
  all: by apply Forall_cons in HF' as [? _].
Qed.

Lemma ff_input_step : consumed s' ++ externalCh s' = inp.
Proof using HL HS HF H.
  pose proof (ff_input _ _ HF) as Hi. revert Hi.
  step_cases_inv H HL HS; simpl; try done.
  - intros Hi. by rewrite Heql0.
  - intros Hi. by rewrite <-Hi, <-app_assoc.
Qed.

Lemma ff_done_step : dpc s' = DDone → externalCh s' = [].
Proof using HL HS HF H.
  pose proof (ff_done _ _ HF) as Hi. revert Hi.
  step_cases_inv H HL HS; simpl; try done.
  all: by rewrite ?Hdpc.
Qed.

Lemma InvFifo_step : InvFifo inp s'.
Proof using HL HS HF H.
  constructor; eauto using ff_order_step, ff_buf_step, ff_held_step,
    ff_input_step, ff_done_step.
Qed.
End fifo_step.

Lemma InvFifo_init inp : InvFifo inp (init inp).
Proof. constructor; simpl; try done. Qed.

Lemma InvFifo_reachable inp s : reachable inp s → InvFifo inp s.
Proof.
  apply (reachable_induction inp); [apply InvFifo_init|].
  intros l s1 s2 Hr HF Hs. destruct (Inv_reachable _ _ Hr).
  by eapply InvFifo_step.
Qed.

(** ** The ordering monitor *)

(** A step is taken only by a program that has not panicked. *)
Lemma step_alive l s s' : step l s = Some s' → crashed s = None.
Proof. unfold step. by destruct (crashed s). Qed.

Lemma wrap64_succ z : wrap64 (wrap64 z + 1) = wrap64 (z + 1).
Proof.
  unfold wrap64. f_equal.
  replace ((z + 2 ^ 63) `mod` 2 ^ 64 - 2 ^ 63 + 1 + 2 ^ 63)%Z
    with ((z + 2 ^ 63) `mod` 2 ^ 64 + 1)%Z by lia.
  rewrite Zplus_mod_idemp_l. f_equal. lia.
Qed.

Lemma wrap64_small z : (- 2 ^ 63 ≤ z < 2 ^ 63)%Z → wrap64 z = z.
Proof. intros Hz. unfold wrap64. rewrite Z.mod_small by lia. lia. Qed.

Lemma nth_id_small n : (Z.of_nat n < 2 ^ 63)%Z → nth_id n = Z.of_nat n.
Proof. intros Hn. apply wrap64_small. lia. Qed.

Lemma InvMon_init inp : InvMon (init inp).
Proof. constructor; done. Qed.

Lemma InvMon_step l s s' : Inv s → InvMon s → step l s = Some s' → InvMon s'.
Proof.
  intros [HL HS] [Hn Ha Hi] H. rewrite (step_alive _ _ _ H) in Hi.
  unfold executed in *. step_cases_inv H HL HS.
  all: constructor; unfold executed; simpl; rewrite ?Hcrash; try done.
  all: try (by rewrite !fmap_app, Hi, <-app_assoc).
  - rewrite length_app. simpl. rewrite Hn. unfold nth_id.
    rewrite wrap64_succ. f_equal. lia.
  - rewrite length_app. simpl. rewrite Nat.add_1_r, seq_S, fmap_app. simpl.
    by rewrite <-Ha, <-Hn.
  - by rewrite Hi, <-app_assoc.
  - eauto.
Qed.

Lemma InvMon_reachable inp s : reachable inp s → InvMon s.
Proof.
  apply (reachable_induction inp); [apply InvMon_init|].
  intros l s1 s2 Hr HM Hs. eapply InvMon_step; [|done..]. by eapply Inv_reachable.
Qed.

(** ** Timing of a worker's calls *)

Lemma past_mono t t' es : t ≤ t' → past t es → past t' es.
Proof. intros Ht H. eapply Forall_impl; [exact H|]. intros e. simpl. lia. Qed.

Lemma late_mono t t' es : t ≤ t' → late t es → late t' es.
Proof. intros Ht H. eapply Forall_impl; [exact H|]. intros e. simpl. lia. Qed.

Lemma past_late t es : past t es → late (t + delay) es.
Proof. intros H. eapply Forall_impl; [exact H|]. intros e. simpl. lia. Qed.

Lemma rested0_mono t t' es : t ≤ t' → rested0 t es → rested0 t' es.
Proof. intros Ht Hg es' e He Hf. specialize (Hg es' e He Hf). lia. Qed.

Lemma rested_mono t t' es : t ≤ t' → rested t es → rested t' es.
Proof. intros Ht Hg es' e He Hn Hf. specialize (Hg es' e He Hn Hf). lia. Qed.

Lemma rested0_rested t es : rested0 t es → rested t es.
Proof. intros Hg es' e He _ Hf. by eapply Hg. Qed.

Lemma late_rested0 t es : late t es → rested0 t es.
Proof.
  intros Hl es' e -> _. unfold late in Hl.
  rewrite Forall_app, Forall_singleton in Hl. by destruct Hl.
Qed.

Lemma rested_single t es : length es = 1 → rested t es.
Proof.
  intros Hlen es' e -> Hne. rewrite length_app in Hlen. simpl in Hlen.
  destruct es'; [done|]. simpl in Hlen. lia.
Qed.

Lemma rested0_unflagged t es es' e :
  es = es' ++ [e] → NeedsDelay (ev_req e) = false → rested0 t es.
Proof.
  intros -> Hf es2 e2 Heq Hf2. apply app_inj_tail in Heq as [_ <-]. congruence.
Qed.

Lemma rested0_last t t' es es' e :
  es = es' ++ [e] → ev_at e + delay ≤ t' → t' ≤ t → rested0 t es.
Proof.
  intros -> Hf Ht es2 e2 Heq Hf2. apply app_inj_tail in Heq as [_ <-]. lia.
Qed.

Lemma rested0_reset t es es' e :
  es = es' ++ [e] → (NeedsDelay (ev_req e) = true → ev_at e + delay ≤ t) →
  rested0 t es.
Proof.
  intros -> Hf es2 e2 Heq Hf2. apply app_inj_tail in Heq as [_ <-]. auto.
Qed.

Lemma wtime_mono t t' es w : t ≤ t' → wtime t es w → wtime t' es w.
Proof.
  intros Ht. unfold wtime. destruct (w_pc w);
    eauto using rested_mono, rested0_mono, late_mono.
  - intros [? ?]; eauto using rested_mono.
  - intros (es' & e & ? & ? & Hf). exists es', e. split_and!; [done..|].
    intros Hn. specialize (Hf Hn). lia.
  - intros [? ?]; eauto using rested_mono.
Qed.

Lemma throttled_snoc t es e :
  rested t es → ev_at e = t → throttled es → throttled (es ++ [e]).
Proof.
  intros Hg He Ht j e1 e2 H1 H2 Hf.
  apply lookup_snoc_Some in H2 as [[Hlt H2]|[Hlen <-]].
  - rewrite lookup_app_l in H1 by lia. eauto.
  - rewrite lookup_app_l in H1 by lia. rewrite He.
    assert (∃ es', es = es' ++ [e1] ∧ es' ≠ []) as (es' & Hes & Hne).
    { exists (take (S j) es). split.
      - rewrite <-(take_drop (S j) es) at 1. f_equal.
        erewrite drop_S by done. rewrite drop_ge by lia. done.
      - intros Hnil. apply (f_equal length) in Hnil.
        rewrite length_take, length_nil in Hnil. lia. }
    eauto.
Qed.

Lemma wlog_nil_snoc i (l : list SinkEvent) e :
  filter (λ e, ev_by e = TWorker i) (l ++ [e])
  = filter (λ e, ev_by e = TWorker i) l
    ++ (if decide (ev_by e = TWorker i) then [e] else []).
Proof. by rewrite filter_app. Qed.

(** Preservation of [InvTime] by every step. *)
Section time_step.
Context (l : Label) (s s' : State).
Context (HL : InvLock s) (HS : InvStruct s) (HT : InvTime s).
Context (H : step l s = Some s').

Lemma tm_fresh_step i : length (workers s') ≤ i → wlog i s' = [].
Proof using HL HS HT H.
  revert i. unfold wlog. step_cases_inv H HL HS.
  all: simpl; intros j Hj; rewrite ?length_insert, ?length_app in Hj; simpl in Hj.
  all: rewrite ?wlog_nil_snoc; simpl.
  all: try (apply lookup_lt_Some in Hw).
  all: try (rewrite decide_False by (intros [=]; lia)).
  all: rewrite ?app_nil_r; apply (tm_fresh _ HT); lia.
Qed.

Lemma tm_past_step j : past (now s') (wlog j s').
Proof using HL HS HT H.
  pose proof (tm_past _ HT j) as Hp. revert Hp.
  unfold wlog. step_cases_inv H HL HS.
  all: simpl; intros Hp; rewrite ?wlog_nil_snoc; simpl; rewrite ?app_nil_r;
    try done.
  all: try (case_decide; [|by rewrite app_nil_r]; apply Forall_app; split;
            [done|by apply Forall_singleton]).
  eapply past_mono; [|done]. lia.
Qed.

Lemma tm_throttled_step j : throttled (wlog j s').
Proof using HL HS HT H.
  pose proof (tm_throttled _ HT j) as Hp. revert Hp.
  unfold wlog. step_cases_inv H HL HS.
  all: simpl; intros Hp; rewrite ?wlog_nil_snoc; simpl; rewrite ?app_nil_r;
    try done.
  all: case_decide; [|by rewrite app_nil_r]; simplify_eq.
  all: pose proof (tm_pc _ HT _ _ Hw) as Hpc; unfold wtime in Hpc;
       rewrite Hwpc in Hpc; unfold wlog in Hpc.
  - rewrite Hpc. intros n e1 e2 H1 H2. done.
  - by eapply throttled_snoc.
Qed.

Lemma tm_pc_step j wj : workers s' !! j = Some wj → wtime (now s') (wlog j s') wj.
Proof using HL HS HT H.
  pose proof (tm_past _ HT j) as Hp. revert wj Hp.
  unfold wlog. step_cases_inv H HL HS.
  all: simpl; intros wj Hp Hj; rewrite ?wlog_nil_snoc; simpl; rewrite ?app_nil_r.
  all: lookup_cases.
  all: try (by apply (tm_pc _ HT)).
  all: try (rewrite decide_False by congruence; rewrite app_nil_r;
            by apply (tm_pc _ HT)).
  all: try (pose proof (tm_pc _ HT _ _ Hw) as Hpc; unfold wtime in Hpc;
       rewrite Hwpc in Hpc; unfold wlog in Hpc).
  all: unfold wtime; simpl; try done.
  all: rewrite ?decide_True by done.
  all: eauto 6 using rested_single, rested0_rested, late_rested0, past_late, late_mono.
  - eapply wtime_mono; [|by apply (tm_pc _ HT)]. lia.
  - apply (tm_fresh _ HT). lia.
  - by rewrite Hpc.
  - destruct Hpc as (_ & d & ? & Hl). simplify_eq.
    eapply late_mono; [|done]. by apply Nat.leb_le.
  - by destruct Hpc.
  - destruct Hpc as (es' & e & Hes & Hr). exists es', e. split_and!; [done..|].
    rewrite Hes in Hp. unfold past in Hp.
    rewrite Forall_app, Forall_singleton in Hp. lia.
  - destruct Hpc as (es' & e & Hes & Hr). exists es', e. split_and!; [done..|].
    congruence.
  - destruct Hpc as (es' & e & Hes & Hr & Hwk). exists es', e.
    split_and!; [done..|]. intros _.
    match goal with Hb : (_ <=? _) = true |- _ => apply Nat.leb_le in Hb end.
    lia.
  - destruct Hpc as (es' & e & Hes & Hr & Hwk). subst r.
    split; [|eauto using past_late].
    eauto using rested0_rested, rested0_reset.
  - split; [|eauto using past_late].
    eauto using rested0_rested, late_rested0.
Qed.

Lemma InvTime_step : InvTime s'.
Proof using HL HS HT H.
  constructor; eauto using tm_fresh_step, tm_past_step, tm_throttled_step,
    tm_pc_step.
Qed.
End time_step.

Lemma InvTime_init inp : InvTime (init inp).
Proof.
  constructor; simpl; try done. intros i. by apply Forall_nil.
Qed.

Lemma InvTime_reachable inp s : reachable inp s → InvTime s.
Proof.
  apply (reachable_induction inp); [apply InvTime_init|].
  intros l s1 s2 Hr HT Hs. destruct (Inv_reachable _ _ Hr).
  by eapply InvTime_step.
Qed.

(** ** The deadline of the idle timer *)







(** * Proofs: the properties of the specification *)

(** ** The scenarios, run on the model *)

Example scenarioA_run :
  let s := after scheduleA scenarioA in
  sink s = [mkEvent (mkRequest "K" "a" false 0) TDisp 0]
  ∧ workers s = [] ∧ activeDelayers s = ∅ ∧ dpc s = DDone ∧ crashed s = None.
Proof. vm_compute. done. Qed.

Example scenarioB_run :
  let s := after scheduleB scenarioB in
  sink s = [mkEvent (mkRequest "K" "a" true 0) (TWorker 0) 0;
            mkEvent (mkRequest "K" "b" false 1) (TWorker 0) 10]
  ∧ workers s = [mkWorker "K" 0 WDone None]
  ∧ activeDelayers s = ∅ ∧ now s = 110 ∧ dpc s = DDone ∧ crashed s = None.
Proof. vm_compute. done. Qed.

Example scenarioD_run :
  let s := after scheduleD scenarioD in
  executed s = scenarioD
  ∧ workers s = [mkWorker "K1" 0 WDone None; mkWorker "K2" 1 WDone None]
  ∧ activeDelayers s = ∅ ∧ dpc s = DDone ∧ crashed s = None.
Proof. vm_compute. done. Qed.

(** With two keys the order of the calls is not the order of the ids, and
    the monitor stops the program with "a" still in its queue. *)
Example scenarioD_abort_run :
  let s := after scheduleD_abort scenarioD in
  executed s = [mkRequest "K2" "b" true 1]
  ∧ consumed s = scenarioD ∧ crashed s = Some MonitorAbort.
Proof. vm_compute. done. Qed.

Lemma after_reachable sched inp :
  is_Some (run sched (init inp)) → reachable inp (after sched inp).
Proof. intros [s Hs]. exists sched. unfold after. by rewrite Hs. Qed.

Lemma for_key_consumed inp s k :
  InvFifo inp s → for_key k inp = for_key k (consumed s) ++ for_key k (externalCh s).
Proof. intros HF. by rewrite <-(ff_input _ _ HF), for_key_app. Qed.

(** C1: per key, the execution sink is invoked in the order in which the
    key's requests arrive on the input stream, whoever makes the call
    (the dispatcher or the key's worker): at any time the requests of key
    [k] handed to the sink so far are an initial segment of the requests
    of key [k] on the input stream. *)
Theorem C1_fifo_per_key inp s k :
  reachable inp s → for_key k (executed s) `prefix_of` for_key k inp.
Proof.
  intros Hr. pose proof (InvFifo_reachable _ _ Hr) as HF.
  exists (pending k s ++ for_key k (externalCh s)).
  by rewrite (for_key_consumed _ _ _ HF), <-(ff_order _ _ HF k), <-app_assoc.
Qed.

Lemma C1_fifo_per_key_witness :
  reachable scenarioB (after scheduleB scenarioB)
  ∧ for_key "K" (executed (after scheduleB scenarioB)) `prefix_of` for_key "K" scenarioB.
Proof.
  assert (reachable scenarioB (after scheduleB scenarioB)) as Hr.
  { apply after_reachable. vm_compute. eauto. }
  split; [exact Hr|]. exact (C1_fifo_per_key _ _ "K" Hr).
Defined.

(** C2: at most one active worker per key.  A worker is [active] until it
    has deleted its routing entry.  In every reachable state
    - two active workers never have the same key;
    - an entry is installed for a key only by the dispatcher, holding the
      mutex, when the table has none for that key, and no active worker
      has that key then;
    - a worker is spawned only by the dispatcher, for the entry it has
      just installed;
    - an entry is removed only by the worker that owns its channel,
      holding the mutex. *)
Theorem C2_one_active_worker_per_key inp s :
  reachable inp s →
  (∀ i j wi wj,
      workers s !! i = Some wi → workers s !! j = Some wj →
      active (w_pc wi) = true → active (w_pc wj) = true →
      w_uid wi = w_uid wj → i = j)
  ∧ (∀ l s' k c,
      step l s = Some s' →
      activeDelayers s !! k = None → activeDelayers s' !! k = Some c →
      (∃ rnd, l = Disp rnd) ∧ mu s = Some TDisp ∧ c = length (workers s)
      ∧ ∀ i w, workers s !! i = Some w → w_uid w = k → active (w_pc w) = false)
  ∧ (∀ l s' w,
      step l s = Some s' → workers s' = workers s ++ [w] →
      (∃ rnd, l = Disp rnd) ∧ w_ch w = length (workers s)
      ∧ activeDelayers s !! w_uid w = Some (w_ch w)
      ∧ ∀ i w0, workers s !! i = Some w0 → w_uid w0 = w_uid w →
                active (w_pc w0) = false)
  ∧ (∀ l s' k c,
      step l s = Some s' →
      activeDelayers s !! k = Some c → activeDelayers s' !! k ≠ Some c →
      ∃ tc rnd w, l = Work c tc rnd ∧ workers s !! c = Some w
                  ∧ w_uid w = k ∧ w_ch w = c ∧ mu s = Some (TWorker c)).
Proof.
  intros Hr. destruct (Inv_reachable _ _ Hr) as [HL HS].
  assert (∀ k, activeDelayers s !! k = None →
            ∀ i w, workers s !! i = Some w → w_uid w = k →
                   active (w_pc w) = false) as Hnone.
  { intros k Hk i w Hw Hu. destruct (active (w_pc w)) eqn:Ha; [|done].
    pose proof (st_active _ HS _ _ Hw Ha). congruence. }
  split; [|split; [|split]].
  - intros i j wi wj Hi Hj Hai Haj Hu.
    pose proof (st_active _ HS _ _ Hi Hai) as H1.
    pose proof (st_active _ HS _ _ Hj Haj) as H2. congruence.
  - intros l s' k c H Hk Hk'. revert Hk'.
    step_cases_inv H HL HS; thread_facts HS; simpl; intros Hk'; try congruence.
    + destruct (decide (UID r = k)) as [<-|Hne];
        [|rewrite lookup_insert_ne in Hk' by done; congruence].
      rewrite lookup_insert_eq in Hk'. simplify_eq.
      repeat split; eauto with lia.
    + apply lookup_delete_Some in Hk' as [_ Hk']. congruence.
  - intros l s' w0 H Hw0. revert Hw0.
    step_cases_inv H HL HS; thread_facts HS; simpl; intros Hw0.
    all: try (apply (f_equal length) in Hw0;
              rewrite ?length_insert, length_app in Hw0; simpl in Hw0; lia).
    apply app_inj_tail in Hw0 as [_ <-]. simpl.
    destruct (Fsp _ _ eq_refl) as [-> Ht]. repeat split; eauto.
    intros i w Hw Hu. destruct (active (w_pc w)) eqn:Ha; [|done].
    pose proof (st_active _ HS _ _ Hw Ha) as Hi. rewrite Hu, Ht in Hi.
    apply lookup_lt_Some in Hw. simplify_eq. lia.
  - intros l s' k c H Hk Hk'. revert Hk'.
    step_cases_inv H HL HS; thread_facts HS; simpl; intros Hk'; try congruence.
    + destruct (decide (UID r = k)) as [<-|Hne];
        [|rewrite lookup_insert_ne in Hk' by done; congruence].
      rewrite (Fv _ _ eq_refl) in Hk. done.
    + destruct (decide (w_uid w = k)) as [<-|Hne];
        [|rewrite lookup_delete_ne in Hk' by done; congruence].
      rewrite Fact in Hk. simplify_eq. exists tc, rnd, w. repeat split; auto.
Qed.

Lemma midB_reachable : reachable scenarioB midB.
Proof. apply after_reachable. vm_compute. eauto. Qed.

Lemma C2_one_active_worker_per_key_witness :
  reachable scenarioB midB
  ∧ ∀ i j wi wj,
      workers midB !! i = Some wi → workers midB !! j = Some wj →
      active (w_pc wi) = true → active (w_pc wj) = true →
      w_uid wi = w_uid wj → i = j.
Proof.
  split; [exact midB_reachable|].
  exact (proj1 (C2_one_active_worker_per_key scenarioB midB midB_reachable)).
Defined.



(** ** Following one goroutine through its statements *)

Lemma step_disp s rnd : crashed s = None → step (Disp rnd) s = processor rnd s.
Proof. unfold step. by intros ->. Qed.

Lemma step_work s i tc rnd :
  crashed s = None → step (Work i tc rnd) s = userDelayer i tc rnd s.
Proof. unfold step. by intros ->. Qed.

Lemma step_tick s : crashed s = None → step Tick s = Some (set_now (S (now s)) s).
Proof. unfold step. by intros ->. Qed.

Lemma run_cons_eq l sched s s1 :
  step l s = Some s1 → run (l :: sched) s = run sched s1.
Proof. simpl. by intros ->. Qed.

(** C5: a request whose key has no routing entry.  From the lookup under
    the lock, the dispatcher's next statements do the following.  With the
    delay flag: make a queue of capacity 1000, install it as the key's
    entry, enqueue the request, release the mutex, spawn a worker with
    that key and queue; the sink is not called.  Without the flag:
    release the mutex and call the sink once, itself; no queue, entry or
    worker is created. *)
Theorem C5_no_entry inp s r rnd :
  reachable inp s → crashed s = None →
  dpc s = DLookup r → activeDelayers s !! UID r = None →
  if NeedsDelay r then
    ∃ s', run (replicate 5 (Disp rnd)) s = Some s'
      ∧ chans s' = chans s ++ [mkChan [r] queueCap false]
      ∧ activeDelayers s' = <[UID r := length (chans s)]> (activeDelayers s)
      ∧ workers s'
        = workers s ++ [mkWorker (UID r) (length (chans s)) WRecvSeed None]
      ∧ mu s' = None ∧ dpc s' = DRecv ∧ sink s' = sink s ∧ crashed s' = None
  else
    length (checkCh s) < checkCap →
    ∃ s', run (replicate 3 (Disp rnd)) s = Some s'
      ∧ sink s' = sink s ++ [mkEvent r TDisp (now s)]
      ∧ chans s' = chans s ∧ activeDelayers s' = activeDelayers s
      ∧ workers s' = workers s ∧ mu s' = None
      ∧ dpc s' = DCallSleep r (now s + sink_latency rnd) ∧ crashed s' = None.
Proof.
  intros Hr Hc Hpc Ht. destruct (Inv_reachable _ _ Hr) as [[Hd _] HS].
  rewrite Hpc in Hd. specialize (Hd eq_refl).
  destruct (NeedsDelay r) eqn:Hflag.
  - eexists. split.
    + unfold replicate.
      erewrite run_cons_eq;
        [|rewrite step_disp by done; unfold processor;
          by rewrite Hpc, Ht, Hflag].
      erewrite run_cons_eq; [|by rewrite step_disp by done].
      erewrite run_cons_eq;
        [|rewrite step_disp by done; unfold processor, send_on; simpl;
          by rewrite lookup_app_r, Nat.sub_diag by done].
      erewrite run_cons_eq;
        [|rewrite step_disp by done; unfold processor; simpl;
          by erewrite mu_unlock_held by done].
      erewrite run_cons_eq; [|by rewrite step_disp by done].
      done.
    + simpl. rewrite insert_app_r_alt, Nat.sub_diag by done. done.
  - intros Hlen. apply Nat.ltb_lt in Hlen. eexists. split.
    + unfold replicate.
      erewrite run_cons_eq;
        [|rewrite step_disp by done; unfold processor;
          by rewrite Hpc, Ht, Hflag].
      erewrite run_cons_eq;
        [|rewrite step_disp by done; unfold processor; simpl;
          by erewrite mu_unlock_held by done].
      erewrite run_cons_eq;
        [|rewrite step_disp by done; unfold processor, callService; simpl;
          by rewrite Hlen].
      done.
    + done.
Qed.

Lemma startB_reachable : reachable scenarioB startB.
Proof. apply after_reachable. vm_compute. eauto. Qed.

Lemma C5_no_entry_witness :
  reachable scenarioB startB ∧ crashed startB = None
  ∧ dpc startB = DLookup (mkRequest "K" "a" true 0)
  ∧ activeDelayers startB !! "K" = None
  ∧ ∃ s', run (replicate 5 (Disp 0)) startB = Some s'
      ∧ chans s' = chans startB ++ [mkChan [mkRequest "K" "a" true 0] queueCap false]
      ∧ activeDelayers s' = <["K" := length (chans startB)]> (activeDelayers startB)
      ∧ workers s'
        = workers startB ++ [mkWorker "K" (length (chans startB)) WRecvSeed None]
      ∧ mu s' = None ∧ dpc s' = DRecv ∧ sink s' = sink startB ∧ crashed s' = None.
Proof.
  split; [exact startB_reachable|].
  split; [reflexivity|]. split; [reflexivity|]. split; [reflexivity|].
  exact (C5_no_entry scenarioB startB (mkRequest "K" "a" true 0) 0
           startB_reachable eq_refl eq_refl eq_refl).
Defined.






(** C10: the dispatcher never sends on a closed queue.  Whenever the
    dispatcher is about to execute [ch <- req] it holds the mutex and the
    channel is open; a worker deletes its entry and closes its queue only
    while it holds the same mutex; so the panic of a send on a closed
    channel is not reachable. *)
Theorem C10_no_send_on_closed inp s :
  reachable inp s →
  (∀ r c, dpc s = DSend r c ∨ dpc s = DSendSeed r c →
      mu s = Some TDisp ∧ ∃ ch, chans s !! c = Some ch ∧ cclosed ch = false)
  ∧ (∀ i w, workers s !! i = Some w → w_pc w = WDelete ∨ w_pc w = WClose →
      mu s = Some (TWorker i))
  ∧ crashed s ≠ Some SendOnClosed.
Proof.
  intros Hr. destruct (Inv_reachable _ _ Hr) as [[Hd HW] HS].
  split; [|split].
  - intros r c Hpc. split; [apply Hd; by destruct Hpc as [-> | ->]|].
    assert (c < length (chans s)) as Hlt.
    { destruct Hpc as [Hpc|Hpc].
      - eapply entry_lt; [done|]. apply (st_view _ HS). by rewrite Hpc.
      - rewrite (st_len _ HS), Hpc. simpl.
        destruct (st_spawn _ HS r c) as [-> _]; [by rewrite Hpc|]. lia. }
    destruct (lookup_lt_is_Some_2 _ _ Hlt) as [ch Hch]. exists ch.
    split; [done|]. destruct (cclosed ch) eqn:Hcl; [|done]. exfalso.
    destruct (st_closed _ HS _ _ Hch Hcl) as (w & Hw & Hc).
    destruct Hpc as [Hpc|Hpc].
    + pose proof (st_view _ HS (UID r) (Some c)) as Ht. rewrite Hpc in Ht.
      destruct (entry_worker _ _ _ _ HS (Ht eq_refl) Hw) as [_ Ha].
      by eapply closedpc_inactive.
    + destruct (st_spawn _ HS r c) as [-> _]; [by rewrite Hpc|].
      apply lookup_lt_Some in Hw. lia.
  - intros i w Hw Hpc. apply (HW _ _ Hw). by destruct Hpc as [-> | ->].
  - by destruct (st_crash _ HS) as [-> | ->].
Qed.

Lemma C10_no_send_on_closed_witness :
  reachable scenarioB midB ∧ crashed midB ≠ Some SendOnClosed.
Proof.
  split; [exact midB_reachable|].
  exact (proj2 (proj2 (C10_no_send_on_closed scenarioB midB midB_reachable))).
Defined.



(** ** Every request is executed at most once, and exactly once at the end *)

Lemma count_for_key r l :
  count_occ Request_eq_dec (for_key (UID r) l) r = count_occ Request_eq_dec l r.
Proof.
  induction l as [|a l IH]; [done|]. unfold for_key in *.
  destruct (decide (UID a = UID r)) as [Heq|Hne].
  - rewrite filter_cons_True by done. simpl. by rewrite IH.
  - rewrite filter_cons_False by done. simpl. rewrite IH.
    destruct (Request_eq_dec a r) as [->|]; [done|done].
Qed.

Lemma for_key_perm l1 l2 :
  (∀ k, for_key k l1 = for_key k l2) → l1 ≡ₚ l2.
Proof.
  intros Hk. apply (Permutation_count_occ Request_eq_dec). intros r.
  by rewrite <-(count_for_key r l1), <-(count_for_key r l2), Hk.
Qed.

Lemma count_prefix r (l1 l2 : list Request) :
  l1 `prefix_of` l2 →
  count_occ Request_eq_dec l1 r ≤ count_occ Request_eq_dec l2 r.
Proof. intros [l ->]. rewrite count_occ_app. lia. Qed.

Lemma finished_nothing_pending inp s k :
  reachable inp s → finished s → pending k s = [].
Proof.
  intros Hr [Hd Hw]. destruct (Inv_reachable _ _ Hr) as [_ HS].
  unfold pending, queued. rewrite Hd. simpl.
  destruct (activeDelayers s !! k) as [c|] eqn:Hk; [|done]. exfalso.
  destruct (st_entry _ HS _ _ Hk) as [(w & Hwc & _ & Ha)|(r & Hsp & _)].
  - by rewrite (Hw _ _ Hwc) in Ha.
  - by rewrite Hd in Hsp.
Qed.

(** C3, as the code has it: no request is executed twice and none is
    discarded.  In every reachable state, for each key the requests
    handed to the sink followed by those still in flight (received by the
    key's worker, waiting in its queue, held by the dispatcher) are the
    requests read so far, in order; so no request has been executed more
    often than it occurs on the stream; a queue is empty when its worker
    deletes the entry and closes it; and when the dispatcher has left its
    loop and all workers have returned, the requests handed to the sink
    are the requests of the stream, each exactly once. *)
Theorem C3_no_duplicate_no_loss inp s :
  reachable inp s →
  (∀ k, for_key k (executed s) ++ pending k s = for_key k (consumed s))
  ∧ (∀ r, count_occ Request_eq_dec (executed s) r
          ≤ count_occ Request_eq_dec inp r)
  ∧ (∀ i w ch, workers s !! i = Some w → chans s !! i = Some ch →
        emptied (w_pc w) = true → cbuf ch = [])
  ∧ (finished s → executed s ≡ₚ inp).
Proof.
  intros Hr. pose proof (InvFifo_reachable _ _ Hr) as HF.
  destruct (Inv_reachable _ _ Hr) as [_ HS].
  split; [apply (ff_order _ _ HF)|]. split; [|split; [apply (st_empty _ HS)|]].
  - intros r. rewrite <-(count_for_key r (executed s)), <-(count_for_key r inp).
    apply count_prefix. exists (pending (UID r) s ++ for_key (UID r) (externalCh s)).
    by rewrite (for_key_consumed _ _ _ HF), <-(ff_order _ _ HF (UID r)),
      <-app_assoc.
  - intros Hfin. apply for_key_perm. intros k.
    pose proof (ff_order _ _ HF k) as Hk.
    rewrite (finished_nothing_pending _ _ _ Hr Hfin), app_nil_r in Hk.
    rewrite Hk, (for_key_consumed _ _ _ HF), (ff_done _ _ HF (proj1 Hfin)).
    simpl. by rewrite app_nil_r.
Qed.

Lemma scenarioB_finished : finished (after scheduleB scenarioB).
Proof.
  split; [reflexivity|]. intros [|[|i]] w Hw; vm_compute in Hw; by simplify_eq.
Qed.

Lemma C3_no_duplicate_no_loss_witness :
  reachable scenarioB (after scheduleB scenarioB)
  ∧ finished (after scheduleB scenarioB)
  ∧ executed (after scheduleB scenarioB) ≡ₚ scenarioB.
Proof.
  assert (reachable scenarioB (after scheduleB scenarioB)) as Hr.
  { apply after_reachable. vm_compute. eauto. }
  split; [exact Hr|]. split; [exact scenarioB_finished|].
  exact (proj2 (proj2 (proj2
    (C3_no_duplicate_no_loss _ _ Hr))) scenarioB_finished).
Defined.

Lemma stuck_step l s s' :
  stuck s = true → step l s = Some s' → stuck s' = true ∧ sink s' = sink s.
Proof.
  unfold stuck. intros Hs H.
  destruct (crashed s) eqn:Hc; [done|].
  destruct (dpc s) as [| | |r c| | | | | | | | |] eqn:Hpc; try done.
  destruct (mu s) as [[|]|] eqn:Hmu; try done.
  destruct (checkCh s) eqn:Hch; [|done].
  destruct (chans s !! c) as [ch|] eqn:Hcs; [|done].
  apply andb_true_iff in Hs as [Hs Hws]. apply andb_true_iff in Hs as [Hcl Hfull].
  apply negb_true_iff in Hcl, Hfull.
  unfold step in H. rewrite Hc in H. destruct l as [|rnd|i tc rnd|].
  - simplify_eq. simpl. rewrite Hc, Hpc, Hmu, Hch, Hcs, Hcl, Hfull, Hws. done.
  - unfold processor, send_on, chan_send in H.
    rewrite Hpc, Hcs in H. simpl in H. by rewrite Hcl, Hfull in H.
  - unfold userDelayer in H.
    destruct (workers s !! i) as [w|] eqn:Hw; [|done]. simpl in H.
    rewrite forallb_forall in Hws.
    assert (In w (workers s)) as Hin.
    { apply list_elem_of_In. by eapply list_elem_of_lookup_2. }
    specialize (Hws _ Hin). destruct (w_pc w); try done.
    unfold mu_lock in H. by rewrite Hmu in H.
  - unfold monitor in H. by rewrite Hch in H.
Qed.

Lemma stuck_run sched s s' :
  stuck s = true → run sched s = Some s' → executed s' = executed s.
Proof.
  revert s. induction sched as [|l sched IH]; intros s Hs Hr; simpl in Hr.
  - by simplify_eq.
  - destruct (step l s) as [s1|] eqn:Hl; [|done]. simpl in Hr.
    destruct (stuck_step _ _ _ Hs Hl) as [Hs1 Hsink].
    rewrite (IH _ Hs1 Hr). unfold executed. by rewrite Hsink.
Qed.

(** C3, the progress half as the specification states it, fails: in the
    deadlocked state 1002 requests have been read, one has been executed,
    and no continuation executes another one. *)
Lemma C3_counterexample : ¬ every_read_request_is_executed burst.
Proof.
  intros Hall.
  destruct (Hall deadlocked) with (r := mkRequest "user1" "task1001" false 1001)
    as (sched & s' & Hrun & Hin).
  - apply after_reachable. vm_compute. eauto.
  - refine (bool_decide_unpack _ _). vm_compute. exact I.
  - assert (stuck deadlocked = true) as Hs by (vm_compute; reflexivity).
    assert (executed deadlocked = [mkRequest "user1" "task000" true 0]) as He
      by (vm_compute; reflexivity).
    rewrite (stuck_run _ _ _ Hs Hrun), He in Hin.
    apply list_elem_of_singleton in Hin. discriminate Hin.
Qed.

(** ** Idle expiry *)

Lemma run_ticks n s :
  crashed s = None → run (ticks n) s = Some (set_now (n + now s) s).
Proof.
  revert s. induction n as [|n IH]; intros s Hc; simpl.
  - by destruct s.
  - rewrite step_tick by done. simpl. rewrite IH by done.
    unfold set_now. simpl. do 2 f_equal. lia.
Qed.




Lemma endB_reachable : reachable scenarioB endB.
Proof. apply after_reachable. vm_compute. eauto. Qed.

Lemma waitB_reachable : reachable scenarioB waitB.
Proof. apply after_reachable. vm_compute. eauto. Qed.




(** The window does not start at the call of the sink.  At time 150 the
    latest call of the worker, for the delay-flagged "b", is 150 ms old
    and its queue is empty, but the timer is set to 200 and the worker
    cannot move; the request "c" read at that time is routed to the same
    worker and executed by it. *)
Example lateK_worker_outlives_window :
  now lateK_150 = 150
  ∧ wlog 0 lateK_150
    = [mkEvent (mkRequest "K" "a" true 0) (TWorker 0) 0;
       mkEvent (mkRequest "K" "b" true 1) (TWorker 0) 0]
  ∧ workers lateK_150 = [mkWorker "K" 0 WSelect (Some 200)]
  ∧ buf_at (chans lateK_150) 0 = []
  ∧ (∀ tc rnd, step (Work 0 tc rnd) lateK_150 = None)
  ∧ sink (after (lateK_schedule ++ disp 5 ++ work 0 3) lateK)
    = [mkEvent (mkRequest "K" "a" true 0) (TWorker 0) 0;
       mkEvent (mkRequest "K" "b" true 1) (TWorker 0) 0;
       mkEvent (mkRequest "K" "c" false 2) (TWorker 0) 150].
Proof.
  split_and!; try (vm_compute; reflexivity).
  intros [|] rnd; vm_compute; reflexivity.
Qed.

(** C8 for the seed fails: the worker calls the sink for the seed "a" and
    for "b" in the same millisecond, since after the seed it only arms the
    idle timer. *)
Lemma C8_counterexample :
  ¬ (∀ s i, reachable pairK s → throttled_from_seed (wlog i s)).
Proof.
  intros Hall.
  assert (reachable pairK (after pairK_schedule pairK)) as Hr.
  { apply after_reachable. vm_compute. eauto. }
  specialize (Hall _ 0 Hr 0
    (mkEvent (mkRequest "K" "a" true 0) (TWorker 0) 0)
    (mkEvent (mkRequest "K" "b" true 1) (TWorker 0) 0)
    eq_refl eq_refl eq_refl).
  vm_compute in Hall. lia.
Qed.

(** C8, as the code has it: the throttle applies to the requests a worker
    receives in its loop, not to the seed.  For a delay-flagged request
    [r] received in the loop the worker, after calling the sink, enters
    [time.Sleep(delay)], does nothing while it sleeps, and when it is
    about to re-arm the timer the call for [r] lies at least one [delay]
    back; so for all calls of a worker but the first, a call for a
    delay-flagged request is followed by the next call no sooner than one
    [delay] later.  After the seed's call the worker goes straight on to
    arm the idle timer. *)
Theorem C8_throttle_in_loop inp s i w :
  reachable inp s → workers s !! i = Some w →
  throttled (wlog i s)
  ∧ (∀ r tc rnd, crashed s = None → w_pc w = WThrottle r →
       NeedsDelay r = true →
       step (Work i tc rnd) s
       = Some (upd_worker i (set_wpc (WSleep r (now s + delay)) w) s))
  ∧ (∀ r wake tc rnd, w_pc w = WSleep r wake → now s < wake →
       step (Work i tc rnd) s = None)
  ∧ (∀ r, w_pc w = WReset r → NeedsDelay r = true →
       ∃ es e, wlog i s = es ++ [e] ∧ ev_req e = r
               ∧ ev_at e + delay ≤ now s)
  ∧ (∀ r wake tc rnd, crashed s = None → w_pc w = WCallSeedSleep r wake →
       wake ≤ now s →
       step (Work i tc rnd) s = Some (upd_worker i (set_wpc WNewTimer w) s)).
Proof.
  intros Hr Hw. pose proof (InvTime_reachable _ _ Hr) as HT.
  pose proof (tm_pc _ HT _ _ Hw) as Ht. unfold wtime in Ht.
  split; [apply (tm_throttled _ HT)|]. split; [|split; [|split]].
  - intros r tc rnd Hc Hpc Hf. rewrite step_work by done.
    unfold userDelayer. rewrite Hw. simpl. by rewrite Hpc, Hf.
  - intros r wake tc rnd Hpc Hlt. unfold step, userDelayer.
    destruct (crashed s); [done|]. rewrite Hw. simpl. rewrite Hpc.
    apply Nat.leb_gt in Hlt. by rewrite Hlt.
  - intros r Hpc Hf. rewrite Hpc in Ht.
    destruct Ht as (es & e & ? & ? & ?). eauto 6.
  - intros r wake tc rnd Hc Hpc Hwake. rewrite step_work by done.
    unfold userDelayer. rewrite Hw. simpl. rewrite Hpc.
    apply Nat.leb_le in Hwake. by rewrite Hwake.
Qed.

Lemma C8_throttle_in_loop_witness :
  reachable tripleK (after tripleK_schedule tripleK)
  ∧ workers (after tripleK_schedule tripleK) !! 0
    = Some (mkWorker "K" 0 (WCallSleep (mkRequest "K" "c" true 2) 100) None)
  ∧ throttled (wlog 0 (after tripleK_schedule tripleK)).
Proof.
  assert (reachable tripleK (after tripleK_schedule tripleK)) as Hr.
  { apply after_reachable. vm_compute. eauto. }
  split; [exact Hr|]. split; [vm_compute; reflexivity|].
  refine (proj1 (C8_throttle_in_loop tripleK _ 0
    (mkWorker "K" 0 (WCallSleep (mkRequest "K" "c" true 2) 100) None) Hr _)).
  vm_compute. reflexivity.
Defined.

(** * Proofs: further properties of the code *)

(** ** Flags, seeds and the holder of the mutex *)

Lemma closed_upd (cs : list Chan) c ch ch' i :
  cs !! c = Some ch → (cclosed ch = true → cclosed ch' = true) →
  (∃ ch0, cs !! i = Some ch0 ∧ cclosed ch0 = true) →
  ∃ ch0, <[c:=ch']> cs !! i = Some ch0 ∧ cclosed ch0 = true.
Proof.
  intros Hc Hcl (ch0 & Hi & H0). destruct (decide (c = i)) as [->|Hne].
  - exists ch'. rewrite list_lookup_insert_eq by (by eapply lookup_lt_Some).
    simplify_eq. auto.
  - exists ch0. by rewrite list_lookup_insert_ne.
Qed.

Lemma closed_snoc (cs : list Chan) ch' i :
  (∃ ch0, cs !! i = Some ch0 ∧ cclosed ch0 = true) →
  ∃ ch0, (cs ++ [ch']) !! i = Some ch0 ∧ cclosed ch0 = true.
Proof. intros (ch0 & Hi & ?). exists ch0. by erewrite lookup_app_l_Some. Qed.

Section flow_step.
Context (l : Label) (s s' : State).
Context (HL : InvLock s) (HS : InvStruct s) (HW : InvFlow s).
Context (H : step l s = Some s').

Lemma fl_flag_step r b : dflag (dpc s') = Some (r, b) → NeedsDelay r = b.
Proof using HL HS HW H.
  revert r b. step_cases_inv H HL HS.
  all: simpl; intros r' b' Hf; simplify_eq; try done.
  all: try (by apply (fl_flag _ HW)).
  all: try (apply (fl_flag _ HW); by rewrite Hdpc).
Qed.

Lemma fl_mu_d_step : mu s' = Some TDisp → dlocked (dpc s') = true.
Proof using HL HS HW H.
  step_cases_inv H HL HS.
  all: simpl; intros Hm; simplify_eq; try done.
  all: try (by apply (fl_mu_d _ HW)).
  all: try (pose proof (fl_mu_d _ HW Hm) as Hd; by rewrite Hdpc in Hd).
Qed.

Lemma fl_mu_w_step j : mu s' = Some (TWorker j) →
    ∃ w, workers s' !! j = Some w ∧ wlocked (w_pc w) = true.
Proof using HL HS HW H.
  revert j. step_cases_inv H HL HS.
  all: simpl; intros j Hm; simplify_eq; try done.
  all: try (by apply (fl_mu_w _ HW)).
  all: try (by eapply exists_snoc, (fl_mu_w _ HW)).
  all: try (by eapply (exists_upd (λ w, wlocked (w_pc w) = true));
              [exact Hw|by rewrite Hwpc|by apply (fl_mu_w _ HW)]).
  all: try (eexists; split; [by apply list_lookup_insert_eq, (lookup_lt_Some _ _ _ Hw)|done]).
Qed.

Lemma fl_len_step c ch : chans s' !! c = Some ch → length (cbuf ch) ≤ queueCap.
Proof using HL HS HW H.
  revert c ch. step_cases_inv H HL HS.
  all: simpl; intros c' ch' Hc; lookup_cases; simpl in *; try done.
  all: try (by eapply (fl_len _ HW)).
  all: try lia.
  all: try (match goal with Hb : (_ <? _) = true |- _ => apply Nat.ltb_lt in Hb end;
            match goal with Hc : chans s !! _ = Some ?ch |- _ =>
              pose proof (st_cap _ HS _ _ Hc) end;
            rewrite length_app; simpl; lia).
  all: try (match goal with Hc : chans s !! _ = Some ?ch |- _ =>
              pose proof (fl_len _ HW _ _ Hc) as Hlen end;
            match goal with Hb : cbuf _ = _ |- _ => rewrite Hb in Hlen end;
            simpl in Hlen; lia).
Qed.

Lemma fl_closed_step i w : workers s' !! i = Some w → closedpc (w_pc w) = true →
    ∃ ch, chans s' !! i = Some ch ∧ cclosed ch = true.
Proof using HL HS HW H.
  revert i w. step_cases_inv H HL HS; thread_facts HS.
  all: simpl; intros j wj Hj Hcl; lookup_cases; simpl in *; try done.
  all: try (by eapply (fl_closed _ HW)).
  all: try (by eapply closed_snoc, (fl_closed _ HW)).
  all: try (by eapply closed_upd; [done|done|by eapply (fl_closed _ HW)]).
  all: try (eapply (fl_closed _ HW); [done|by rewrite Hwpc]).
  all: try (by eapply closed_upd;
              [done|simpl; congruence|by eapply (fl_closed _ HW)]).
  eexists. by rewrite list_lookup_insert_eq by (by eapply lookup_lt_Some).
Qed.

Lemma fl_fresh_step r c : dpc s' = DSendSeed r c → buf_at (chans s') c = [].
Proof using HL HS HW H.
  revert r c. step_cases_inv H HL HS; thread_facts HS.
  all: simpl; intros r' c' Hp; simplify_eq; try done.
  all: try (pose proof (st_ch _ HS _ _ Hw) as Hwc).
  all: try (assert (dpc s = DSendSeed r' c') as Hp' by congruence;
            pose proof (fl_fresh _ HW _ _ Hp') as Hb;
            pose proof (st_spawn _ HS r' c') as Hsp; rewrite Hp' in Hsp;
            destruct (Hsp eq_refl) as [-> _];
            try (apply lookup_lt_Some in Hw);
            first [ done
                  | rewrite buf_at_upd_ne by lia; done ]).
  unfold buf_at. by rewrite lookup_app_r, Nat.sub_diag by done.
Qed.

Lemma fl_seed_step r c : seeded (dpc s') = Some (r, c) →
    ∃ rest, buf_at (chans s') c = r :: rest.
Proof using HL HS HW H.
  revert r c. step_cases_inv H HL HS; thread_facts HS.
  all: simpl; intros r' c' Hp; simplify_eq; try done.
  all: try (pose proof (st_ch _ HS _ _ Hw) as Hwc).
  all: try (assert (seeded (dpc s) = Some (r', c')) as Hp' by congruence;
            pose proof (fl_seed _ HW _ _ Hp') as Hb;
            pose proof (st_spawn _ HS r' c') as Hsp;
            destruct (dpc s); simpl in Hp'; simplify_eq;
            destruct (Hsp eq_refl) as [-> _];
            try (apply lookup_lt_Some in Hw);
            first [ done
                  | rewrite buf_at_upd_ne by lia; done ]).
  - pose proof (fl_fresh _ HW _ _ Hdpc) as Hb.
    erewrite buf_at_lookup in Hb by done.
    erewrite buf_at_upd_eq by done. simpl. rewrite Hb. by eexists.
  - apply (fl_seed _ HW). by rewrite Hdpc.
Qed.

Lemma first_upd (cs : list Chan) c ch x i :
  cs !! c = Some ch →
  (∃ r rest, buf_at cs i = r :: rest ∧ NeedsDelay r = true) →
  ∃ r rest, buf_at (<[c:=mkChan (cbuf ch ++ [x]) (ccap ch) false]> cs) i
            = r :: rest ∧ NeedsDelay r = true.
Proof.
  intros Hc (r & rest & Hb & Hf). destruct (decide (c = i)) as [->|Hne].
  - erewrite buf_at_upd_eq by done. simpl.
    erewrite buf_at_lookup in Hb by done. rewrite Hb. by exists r, (rest ++ [x]).
  - rewrite buf_at_upd_ne by done. eauto.
Qed.

Lemma fl_first_step i w : workers s' !! i = Some w → w_pc w = WRecvSeed →
    ∃ r rest, buf_at (chans s') i = r :: rest ∧ NeedsDelay r = true.
Proof using HL HS HW H.
  revert i w. step_cases_inv H HL HS; thread_facts HS.
  all: simpl; intros j wj Hj Hp; lookup_cases; simpl in *; try done.
  all: try (by eapply (fl_first _ HW)).
  all: try (by eapply first_upd; [done|eapply (fl_first _ HW)]).
  all: try (rewrite buf_at_upd_ne by done; by eapply (fl_first _ HW)).
  all: try (rewrite buf_at_upd by done; by eapply (fl_first _ HW)).
  - rewrite buf_at_snoc by done. by eapply (fl_first _ HW).
  - destruct (Fsp _ _ eq_refl) as [<- _].
    destruct (fl_seed _ HW r c) as [rest Hb]; [by rewrite Hdpc|].
    exists r, rest. split; [done|]. apply (fl_flag _ HW). by rewrite Hdpc.
Qed.

Lemma fl_held_step i w r : workers s' !! i = Some w → w_pc w = WCallSeed r →
    NeedsDelay r = true.
Proof using HL HS HW H.
  revert i w r. step_cases_inv H HL HS; thread_facts HS.
  all: simpl; intros j wj rj Hj Hp; lookup_cases; simpl in *; try done.
  all: try (by eapply (fl_held _ HW)).
  destruct (fl_first _ HW _ _ Hw Hwpc) as (r0 & rest & Hb & Hf).
  erewrite buf_at_lookup in Hb by done. congruence.
Qed.

Lemma fl_more_step i w : workers s' !! i = Some w → refilled (w_pc w) = true →
    buf_at (chans s') i ≠ [].
Proof using HL HS HW H.
  revert i w. step_cases_inv H HL HS; thread_facts HS.
  all: simpl; intros j wj Hj Hp; lookup_cases; simpl in *; try done.
  all: try (by eapply (fl_more _ HW)).
  all: try (rewrite buf_at_snoc by done; by eapply (fl_more _ HW)).
  all: try (eapply (fl_more _ HW); [done|by rewrite Hwpc]).
  all: try (rewrite buf_at_upd_ne by done; by eapply (fl_more _ HW)).
  all: try (destruct (decide (c = j)) as [->|Hne];
            [ erewrite buf_at_upd_eq by done; simpl; by destruct (cbuf _)
            | rewrite buf_at_upd_ne by done; by eapply (fl_more _ HW) ]).
  erewrite buf_at_lookup by done. by destruct (cbuf H0).
Qed.

Lemma InvFlow_step : InvFlow s'.
Proof using HL HS HW H.
  constructor; eauto using fl_flag_step, fl_fresh_step, fl_seed_step,
    fl_first_step, fl_held_step, fl_len_step, fl_more_step, fl_closed_step,
    fl_mu_d_step, fl_mu_w_step.
Qed.
End flow_step.

Lemma InvFlow_init inp : InvFlow (init inp).
Proof. constructor; simpl; done. Qed.

Lemma InvFlow_reachable inp s : reachable inp s → InvFlow s.
Proof.
  apply (reachable_induction inp); [apply InvFlow_init|].
  intros l s1 s2 Hr HW Hs. destruct (Inv_reachable _ _ Hr).
  by eapply InvFlow_step.
Qed.

Section sink_step.
Context (inp : list Request) (l : Label) (s s' : State).
Context (HL : InvLock s) (HS : InvStruct s) (HF : InvFifo inp s).
Context (HT : InvTime s) (HW : InvFlow s) (HK : InvSink s).
Context (H : step l s = Some s').

Lemma sk_disp_step e :
  e ∈ sink s' → ev_by e = TDisp → NeedsDelay (ev_req e) = false.
Proof using HL HS HW HK H.
  revert e. step_cases_inv H HL HS.
  all: simpl; intros e He Hby; try (by apply (sk_disp _ HK)).
  all: apply elem_of_app in He as [He|He]; [by apply (sk_disp _ HK)|].
  all: apply list_elem_of_singleton in He; subst e; simpl in *; try done.
  apply (fl_flag _ HW). by rewrite Hdpc.
Qed.

Lemma sk_work_step e i :
  e ∈ sink s' → ev_by e = TWorker i →
  ∃ w, workers s' !! i = Some w ∧ UID (ev_req e) = w_uid w.
Proof using HL HS HF HK H.
  revert e i. step_cases_inv H HL HS; thread_facts HS.
  all: simpl; intros e j He Hby; try (by apply (sk_work _ HK)).
  all: try (by eapply exists_snoc, (sk_work _ HK)).
  all: try (by eapply (exists_upd (λ w, UID (ev_req e) = w_uid w));
              [exact Hw|done|by apply (sk_work _ HK)]).
  - apply elem_of_app in He as [He|He]; [by apply (sk_work _ HK)|].
    apply list_elem_of_singleton in He; subst e; simpl in *; simplify_eq.
  - apply elem_of_app in He as [He|He].
    { eapply (exists_upd (λ w, UID (ev_req e) = w_uid w));
        [exact Hw|done|by apply (sk_work _ HK)]. }
    apply list_elem_of_singleton in He; subst e; simpl in *; simplify_eq.
    eexists. split; [apply list_lookup_insert_eq; by eapply lookup_lt_Some|].
    simpl. pose proof (ff_held _ _ HF _ _ Hw) as Hh. rewrite Hwpc in Hh.
    simpl in Hh. by rewrite Forall_singleton in Hh.
  - apply elem_of_app in He as [He|He].
    { eapply (exists_upd (λ w, UID (ev_req e) = w_uid w));
        [exact Hw|done|by apply (sk_work _ HK)]. }
    apply list_elem_of_singleton in He; subst e; simpl in *; simplify_eq.
    eexists. split; [apply list_lookup_insert_eq; by eapply lookup_lt_Some|].
    simpl. pose proof (ff_held _ _ HF _ _ Hw) as Hh. rewrite Hwpc in Hh.
    simpl in Hh. by rewrite Forall_singleton in Hh.
Qed.

Lemma sk_started_step i w :
  workers s' !! i = Some w → unstarted (w_pc w) = false → wlog i s' ≠ [].
Proof using HL HS HT HK H.
  revert i w. unfold wlog. step_cases_inv H HL HS; thread_facts HS.
  all: simpl; intros j wj Hj Hp; rewrite ?wlog_nil_snoc; simpl;
    rewrite ?app_nil_r.
  all: lookup_cases; simpl in *; try done.
  all: try (by eapply (sk_started _ HK)).
  all: try (eapply (sk_started _ HK); [done|by rewrite Hwpc]).
  all: try (rewrite decide_False by congruence; rewrite app_nil_r;
            by eapply (sk_started _ HK)).
  all: try (rewrite decide_True by done; by destruct (filter _ _)).
Qed.

Lemma sk_first_step i e es :
  wlog i s' = e :: es → NeedsDelay (ev_req e) = true.
Proof using HL HS HT HW HK H.
  revert i e es. unfold wlog. step_cases_inv H HL HS; thread_facts HS.
  all: simpl; intros j e es; rewrite ?wlog_nil_snoc; simpl; rewrite ?app_nil_r.
  all: try (by apply (sk_first _ HK)).
  all: case_decide; [|rewrite app_nil_r; by apply (sk_first _ HK)].
  all: simplify_eq.
  - pose proof (tm_pc _ HT _ _ Hw) as Hpc. unfold wtime in Hpc.
    rewrite Hwpc in Hpc. unfold wlog in Hpc. rewrite Hpc. simpl.
    intros ?; simplify_eq. simpl. by eapply (fl_held _ HW).
  - pose proof (sk_started _ HK _ _ Hw) as Hne. rewrite Hwpc in Hne.
    specialize (Hne eq_refl). unfold wlog in Hne.
    destruct (filter _ (sink s)) as [|e0 es0] eqn:Hfl; [done|].
    simpl. intros ?; simplify_eq. eapply (sk_first _ HK). unfold wlog. by rewrite Hfl.
Qed.

Lemma InvSink_step : InvSink s'.
Proof using HL HS HF HT HW HK H.
  constructor; eauto using sk_disp_step, sk_work_step, sk_first_step,
    sk_started_step.
Qed.
End sink_step.

Lemma InvSink_init inp : InvSink (init inp).
Proof.
  constructor; simpl; try done.
  - intros e He. by apply elem_of_nil in He.
  - intros e i He. by apply elem_of_nil in He.
Qed.

Lemma InvSink_reachable inp s : reachable inp s → InvSink s.
Proof.
  apply (reachable_induction inp); [apply InvSink_init|].
  intros l s1 s2 Hr HK Hs. destruct (Inv_reachable _ _ Hr).
  eapply InvSink_step; eauto using InvFifo_reachable, InvTime_reachable,
    InvFlow_reachable.
Qed.

(** ** Streams of one key *)

Lemma executed_in_input inp s r :
  reachable inp s → r ∈ executed s → r ∈ inp.
Proof.
  intros Hr Hin. pose proof (InvFifo_reachable _ _ Hr) as HF.
  assert (r ∈ for_key (UID r) (executed s)) as H1.
  { unfold for_key. apply list_elem_of_filter. done. }
  assert (r ∈ for_key (UID r) (consumed s)) as H2.
  { rewrite <-(ff_order _ _ HF). apply elem_of_app. by left. }
  unfold for_key in H2. apply list_elem_of_filter in H2 as [_ H2].
  rewrite <-(ff_input _ _ HF). apply elem_of_app. by left.
Qed.

Lemma for_key_all k (l : list Request) :
  (∀ r, r ∈ l → UID r = k) → for_key k l = l.
Proof.
  induction l as [|a l IH]; intros Hall; [done|]. unfold for_key in *.
  rewrite filter_cons_True by (apply Hall; left).
  f_equal. apply IH. intros r Hr. apply Hall. by right.
Qed.

Lemma single_key_prefix inp k s :
  (∀ r, r ∈ inp → UID r = k) → reachable inp s → executed s `prefix_of` inp.
Proof.
  intros Hk Hr. pose proof (InvFifo_reachable _ _ Hr) as HF.
  rewrite <-(for_key_all k (executed s)), <-(for_key_all k inp) by
    eauto using executed_in_input.
  exists (pending k s ++ for_key k (externalCh s)).
  by rewrite (for_key_consumed _ _ _ HF), <-(ff_order _ _ HF k), <-app_assoc.
Qed.

Lemma numbered_no_abort inp k s :
  (∀ r, r ∈ inp → UID r = k) → numbered inp →
  (Z.of_nat (length inp) ≤ 2 ^ 63)%Z →
  reachable inp s → crashed s = None.
Proof.
  intros Hk Hn Hlen Hr.
  destruct (single_key_prefix _ _ _ Hk Hr) as [rest Hp].
  destruct (InvMon_reachable _ _ Hr) as [Hnext Hacc Hids].
  destruct (crashed s) eqn:Hc; [|done]. exfalso.
  destruct Hids as (x & Hids & Hx). apply Hx. rewrite Hnext.
  set (n := length (accepted s)) in *.
  assert ((id <$> executed s) !! n = Some x) as Hlk.
  { rewrite Hids. rewrite lookup_app_r by done. by rewrite Nat.sub_diag. }
  rewrite list_lookup_fmap in Hlk.
  destruct (executed s !! n) as [r|] eqn:Hrn; [|done]. simpl in Hlk.
  assert (inp !! n = Some r) as Hin.
  { rewrite Hp. by apply lookup_app_l_Some. }
  pose proof (lookup_lt_Some _ _ _ Hin).
  rewrite nth_id_small by lia. rewrite <-(Hn _ _ Hin). congruence.
Qed.

Lemma simulateRequests_numbered draws : numbered (simulateRequests draws).
Proof.
  intros j r Hj. unfold simulateRequests in Hj.
  rewrite list_lookup_imap in Hj.
  destruct (draws !! j); simpl in Hj; by simplify_eq.
Qed.

Lemma simulateRequests_user1 draws r :
  r ∈ simulateRequests draws → UID r = "user1".
Proof.
  intros Hin. apply list_elem_of_lookup in Hin as [j Hj].
  unfold simulateRequests in Hj. rewrite list_lookup_imap in Hj.
  destruct (draws !! j); simpl in Hj; by simplify_eq.
Qed.

Lemma simulateRequests_length draws :
  length (simulateRequests draws) = length draws.
Proof. unfold simulateRequests. apply length_imap. Qed.

(** X1: a stream of one key whose ids count up from 0 (at most 2^63
    requests).  In every reachable state the requests handed to the sink,
    by the dispatcher and by the workers together, are an initial segment
    of the stream, the monitor has not panicked, and the ids the monitor
    has accepted followed by those waiting in [checkCh] are 0, 1, 2, ...
    without a gap. *)
Theorem single_key_stream_in_order inp k s :
  (∀ r, r ∈ inp → UID r = k) → numbered inp →
  (Z.of_nat (length inp) ≤ 2 ^ 63)%Z →
  reachable inp s →
  executed s `prefix_of` inp
  ∧ crashed s = None
  ∧ accepted s ++ checkCh s = Z.of_nat <$> seq 0 (length (executed s)).
Proof.
  intros Hk Hn Hlen Hr.
  pose proof (single_key_prefix _ _ _ Hk Hr) as Hp.
  pose proof (numbered_no_abort _ _ _ Hk Hn Hlen Hr) as Hc.
  split; [done|]. split; [done|].
  destruct (InvMon_reachable _ _ Hr) as [_ _ Hids]. rewrite Hc in Hids.
  rewrite <-Hids. destruct Hp as [rest Hp].
  apply list_eq. intros j. rewrite !list_lookup_fmap.
  destruct (executed s !! j) as [r|] eqn:Hj; simpl.
  - rewrite lookup_seq_lt by (by eapply lookup_lt_Some). simpl. f_equal.
    apply Hn. rewrite Hp. by apply lookup_app_l_Some.
  - rewrite lookup_seq_ge; [done|]. by apply lookup_ge_None.
Qed.

Lemma scenarioB_one_key r : r ∈ scenarioB → UID r = "K".
Proof.
  unfold scenarioB. rewrite !elem_of_cons, elem_of_nil. by intros [->|[->|[]]].
Qed.

Lemma scenarioB_numbered : numbered scenarioB.
Proof. intros [|[|j]] r Hj; simpl in Hj; by simplify_eq. Qed.

Lemma scenarioB_end_reachable : reachable scenarioB (after scheduleB scenarioB).
Proof. apply after_reachable. vm_compute. eauto. Qed.

Lemma single_key_stream_in_order_witness :
  executed (after scheduleB scenarioB) `prefix_of` scenarioB
  ∧ crashed (after scheduleB scenarioB) = None
  ∧ accepted (after scheduleB scenarioB) ++ checkCh (after scheduleB scenarioB)
    = Z.of_nat <$> seq 0 (length (executed (after scheduleB scenarioB))).
Proof.
  apply (single_key_stream_in_order scenarioB "K" (after scheduleB scenarioB)
           scenarioB_one_key scenarioB_numbered).
  - vm_compute. discriminate.
  - exact scenarioB_end_reachable.
Defined.

Lemma simulateRequests_take n draws :
  take n (simulateRequests draws) = simulateRequests (take n draws).
Proof.
  unfold simulateRequests. apply list_eq. intros j.
  destruct (decide (j < n)) as [Hlt|Hge].
  - rewrite lookup_take_lt by done. rewrite !list_lookup_imap.
    by rewrite lookup_take_lt by done.
  - rewrite lookup_take_ge by lia. rewrite list_lookup_imap.
    by rewrite lookup_take_ge by lia.
Qed.

(** The traffic of [simulateRequests], read from a stream that is
    available from the start, is executed in the order of generation. *)
Lemma simulated_requests_in_order draws s :
  (Z.of_nat (length draws) ≤ 2 ^ 63)%Z →
  reachable (simulateRequests draws) s →
  executed s = simulateRequests (take (length (executed s)) draws)
  ∧ crashed s = None.
Proof.
  intros Hlen Hr.
  assert (∀ r, r ∈ simulateRequests draws → UID r = "user1") as Hk
    by apply simulateRequests_user1.
  rewrite <-simulateRequests_length in Hlen.
  split; [|by eapply numbered_no_abort; eauto using simulateRequests_numbered].
  destruct (single_key_prefix _ _ _ Hk Hr) as [rest Hp].
  rewrite <-simulateRequests_take, Hp.
  by rewrite take_app_length.
Qed.

(** ** Who calls the sink *)

(** X3: who calls the sink.  The dispatcher calls it only for requests
    without the delay flag.  A worker calls it only for requests of its
    own UID, and the first request a worker calls it for carries the delay
    flag: it is the seed. *)
Theorem sink_calls_by_role inp s e :
  reachable inp s → e ∈ sink s →
  match ev_by e with
  | TDisp => NeedsDelay (ev_req e) = false
  | TWorker i =>
      ∃ w e0 es, workers s !! i = Some w ∧ UID (ev_req e) = w_uid w
        ∧ wlog i s = e0 :: es ∧ NeedsDelay (ev_req e0) = true
  end.
Proof.
  intros Hr He. pose proof (InvSink_reachable _ _ Hr) as HK.
  destruct (ev_by e) as [|i] eqn:Hby.
  - by apply (sk_disp _ HK).
  - destruct (sk_work _ HK _ _ He Hby) as (w & Hw & Hu).
    assert (e ∈ wlog i s) as Hin by (by apply list_elem_of_filter).
    destruct (wlog i s) as [|e0 es] eqn:Hl; [by apply elem_of_nil in Hin|].
    exists w, e0, es. split_and!; try done. by eapply (sk_first _ HK).
Qed.

Lemma endB_call_b :
  mkEvent (mkRequest "K" "b" false 1) (TWorker 0) 10 ∈ sink endB.
Proof.
  assert (sink endB = [mkEvent (mkRequest "K" "a" true 0) (TWorker 0) 0;
                       mkEvent (mkRequest "K" "b" false 1) (TWorker 0) 10])
    as -> by (vm_compute; reflexivity).
  rewrite !elem_of_cons. auto.
Qed.

Lemma sink_calls_by_role_witness :
  reachable scenarioB endB
  ∧ ∃ w e0 es, workers endB !! 0 = Some w ∧ "K" = w_uid w
      ∧ wlog 0 endB = e0 :: es ∧ NeedsDelay (ev_req e0) = true.
Proof.
  split; [exact endB_reachable|].
  exact (sink_calls_by_role scenarioB endB
           (mkEvent (mkRequest "K" "b" false 1) (TWorker 0) 10)
           endB_reachable endB_call_b).
Defined.

(** ** Queues and the routing table *)

(** X4: a worker never finds its queue closed.  The branches [if !ok] of
    [userDelayer] (main.go:66-72 and 85-87) are never entered.  When a
    worker is about to receive, its queue is open, and a step from there
    either takes the timer case or receives the request at the head of
    the queue with [ok = true]. *)
Theorem worker_never_sees_closed_queue inp s i w :
  reachable inp s → workers s !! i = Some w →
  w_pc w ≠ WSeedLock ∧ w_pc w ≠ WSeedDelete ∧ w_pc w ≠ WSeedClose
  ∧ w_pc w ≠ WSeedUnlock ∧ (∀ r, w_pc w ≠ WStop r false)
  ∧ (w_pc w = WRecvSeed ∨ w_pc w = WSelect →
     ∃ ch, chans s !! i = Some ch ∧ cclosed ch = false
       ∧ ∀ b n s', step (Work i b n) s = Some s' →
           ∃ w', workers s' !! i = Some w'
             ∧ (w_pc w' = WTimerLock
                ∨ ∃ r, head (cbuf ch) = Some r
                    ∧ (w_pc w' = WCallSeed r ∨ w_pc w' = WStop r true))).
Proof.
  intros Hr Hw. destruct (Inv_reachable _ _ Hr) as [HL HS].
  pose proof (st_unreach _ HS _ _ Hw) as Hun.
  pose proof (st_ch _ HS _ _ Hw) as Hwch.
  pose proof (lookup_lt_Some _ _ _ Hw) as Hi.
  split_and!; try (intros Hpc; by rewrite Hpc in Hun).
  { intros r Hpc; by rewrite Hpc in Hun. }
  intros Hpc.
  assert (i < length (chans s)) as Hlt by (rewrite (st_len _ HS); lia).
  destruct (lookup_lt_is_Some_2 _ _ Hlt) as [ch Hch]. exists ch.
  assert (cclosed ch = false) as Hopen.
  { destruct (cclosed ch) eqn:Hcl; [|done].
    destruct (st_closed _ HS _ _ Hch Hcl) as (w0 & Hw0 & Hc). simplify_eq.
    by destruct Hpc as [Hpc|Hpc]; rewrite Hpc in Hc. }
  split; [done|]. split; [done|].
  intros b n s' Hs. unfold step in Hs. destruct (crashed s); [done|].
  unfold userDelayer in Hs. rewrite Hw in Hs. simpl in Hs.
  destruct Hpc as [Hpc|Hpc]; rewrite Hpc in Hs; simpl in Hs.
  - rewrite Hwch, Hch in Hs. simpl in Hs. unfold chan_recv in Hs.
    rewrite Hopen in Hs.
    destruct (cbuf ch) as [|r rest] eqn:Hb; [done|]. simplify_eq.
    eexists. split; [simpl; by apply list_lookup_insert_eq|].
    right. exists r. auto.
  - destruct b.
    + destruct (w_timer w) as [d|]; [|done].
      destruct (d <=? now s); [|done]. simplify_eq.
      eexists. split; [simpl; by apply list_lookup_insert_eq|]. by left.
    + rewrite Hwch, Hch in Hs. simpl in Hs. unfold chan_recv in Hs.
      rewrite Hopen in Hs.
      destruct (cbuf ch) as [|r rest] eqn:Hb; [done|]. simplify_eq.
      eexists. split; [simpl; by apply list_lookup_insert_eq|].
      right. exists r. auto.
Qed.

Lemma worker_never_sees_closed_queue_witness :
  reachable scenarioB waitB
  ∧ workers waitB !! 0 = Some (mkWorker "K" 0 WSelect (Some 100))
  ∧ ∃ ch, chans waitB !! 0 = Some ch ∧ cclosed ch = false.
Proof.
  split; [exact waitB_reachable|]. split; [vm_compute; reflexivity|].
  destruct (proj2 (proj2 (proj2 (proj2 (proj2
    (worker_never_sees_closed_queue scenarioB waitB 0
       (mkWorker "K" 0 WSelect (Some 100)) waitB_reachable eq_refl)))))
    (or_intror eq_refl)) as (ch & Hch & Hcl & _).
  exists ch. split; [exact Hch|exact Hcl].
Defined.

(** X5: the routing table holds open queues.  An entry for key [k] points
    to a queue that is open, has capacity 1000 and holds only requests of
    key [k]; two keys never share a queue; a closed queue is empty and no
    entry points to it. *)
Theorem routing_table_open_queues inp s :
  reachable inp s →
  (∀ k c, activeDelayers s !! k = Some c →
     ∃ ch, chans s !! c = Some ch ∧ cclosed ch = false ∧ ccap ch = queueCap
       ∧ Forall (λ r, UID r = k) (cbuf ch))
  ∧ (∀ k1 k2 c, activeDelayers s !! k1 = Some c →
       activeDelayers s !! k2 = Some c → k1 = k2)
  ∧ (∀ c ch, chans s !! c = Some ch → cclosed ch = true →
       cbuf ch = [] ∧ ∀ k, activeDelayers s !! k ≠ Some c).
Proof.
  intros Hr. destruct (Inv_reachable _ _ Hr) as [HL HS].
  pose proof (InvFifo_reachable _ _ Hr) as HF.
  split; [|split].
  - intros k c Hk.
    destruct (lookup_lt_is_Some_2 (chans s) c) as [ch Hch];
      [by eapply entry_lt|].
    exists ch. split; [done|]. split_and!.
    + destruct (cclosed ch) eqn:Hcl; [|done]. exfalso.
      destruct (st_closed _ HS _ _ Hch Hcl) as (w & Hw & Hc).
      destruct (entry_worker _ _ _ _ HS Hk Hw) as [_ Ha].
      by eapply closedpc_inactive.
    + by eapply (st_cap _ HS).
    + by eapply (ff_buf _ _ HF).
  - intros k1 k2 c. by apply table_inj.
  - intros c ch Hch Hcl.
    destruct (st_closed _ HS _ _ Hch Hcl) as (w & Hw & Hc). split.
    + eapply (st_empty _ HS); [done..|]. by destruct (w_pc w).
    + intros k Hk. destruct (entry_worker _ _ _ _ HS Hk Hw) as [_ Ha].
      by eapply closedpc_inactive.
Qed.

Lemma routing_table_open_queues_witness :
  reachable scenarioB midB
  ∧ activeDelayers midB !! "K" = Some 0
  ∧ ∃ ch, chans midB !! 0 = Some ch ∧ cclosed ch = false ∧ ccap ch = queueCap
      ∧ Forall (λ r, UID r = "K") (cbuf ch).
Proof.
  split; [exact midB_reachable|]. split; [vm_compute; reflexivity|].
  refine (proj1 (routing_table_open_queues scenarioB midB midB_reachable)
            "K" 0 _).
  vm_compute. reflexivity.
Defined.

(** ** Halting *)

Lemma run_ticks_then n l s :
  crashed s = None → run (ticks n ++ [l]) s = step l (set_now (n + now s) s).
Proof.
  intros Hc. rewrite run_app, run_ticks by done. simpl.
  by destruct (step l _).
Qed.

Lemma worker_can_move inp s i w :
  reachable inp s → crashed s = None → checkCh s = [] →
  workers s !! i = Some w → w_pc w ≠ WDone →
  (w_pc w = WTimerLock → mu s = None) →
  ∃ n tc, is_Some (step (Work i tc 0) (set_now (n + now s) s)).
Proof.
  intros Hr Hc Hck Hw Hnd Hmu. destruct (Inv_reachable _ _ Hr) as [HL HS].
  pose proof (InvFlow_reachable _ _ Hr) as HW.
  pose proof (tm_pc _ (InvTime_reachable _ _ Hr) _ _ Hw) as Ht.
  pose proof (st_unreach _ HS _ _ Hw) as Hun.
  pose proof (st_ch _ HS _ _ Hw) as Hwch.
  assert (i < length (chans s)) as Hlt.
  { rewrite (st_len _ HS). apply lookup_lt_Some in Hw. lia. }
  destruct (lookup_lt_is_Some_2 _ _ Hlt) as [ch Hch].
  unfold step, userDelayer. simpl. rewrite Hc, Hw. simpl.
  unfold wtime in Ht.
  destruct (w_pc w) eqn:Hpc; try done; simpl.
  all: rewrite ?Hwch, ?Hch; simpl.
  all: try (by exists 0, false; eauto).
  - (* WRecvSeed *)
    destruct (fl_first _ HW _ _ Hw Hpc) as (r & rest & Hb & _).
    erewrite buf_at_lookup in Hb by done.
    exists 0, false. unfold chan_recv. rewrite Hb. eauto.
  - (* WCallSeed *)
    exists 0, false. unfold callService. simpl. rewrite Hck. simpl. eauto.
  - (* WCallSeedSleep *)
    exists wake, false. rewrite (proj2 (Nat.leb_le _ _)) by lia. eauto.
  - (* WSelect *)
    destruct Ht as (_ & d & Hd & _). exists d, true. rewrite Hd.
    rewrite (proj2 (Nat.leb_le _ _)) by lia. eauto.
  - (* WCall *)
    exists 0, false. unfold callService. simpl. rewrite Hck. simpl. eauto.
  - exists wake, false. rewrite (proj2 (Nat.leb_le _ _)) by lia. eauto.
  - exists wake, false. rewrite (proj2 (Nat.leb_le _ _)) by lia. eauto.
  - (* WTimerLock *)
    exists 0, false. unfold mu_lock. simpl. rewrite Hmu by done. simpl. eauto.
  - (* WTimerCheck *)
    exists 0, false. destruct (0 <? length (cbuf ch)); eauto.
  - (* WClose *)
    exists 0, false. unfold close_on. simpl. rewrite Hch. simpl.
    unfold chan_close. destruct (cclosed ch); simpl; eauto.
Qed.

Lemma dispatcher_can_move inp s :
  reachable inp s → crashed s = None → checkCh s = [] →
  dpc s ≠ DDone →
  (∀ r, dpc s = DLock r → mu s = None) →
  (∀ r c ch, dpc s = DSend r c → chans s !! c = Some ch →
             length (cbuf ch) < ccap ch) →
  ∃ n, is_Some (step (Disp 0) (set_now (n + now s) s)).
Proof.
  intros Hr Hc Hck Hnd Hmu Hfull. destruct (Inv_reachable _ _ Hr) as [HL HS].
  pose proof (InvFlow_reachable _ _ Hr) as HW.
  unfold step, processor. simpl. rewrite Hc.
  destruct (dpc s) eqn:Hpc; try done; simpl.
  all: try (by exists 0; eauto).
  - exists 0. destruct (externalCh s); eauto.
  - exists 0. unfold mu_lock. simpl. rewrite (Hmu r) by done. simpl. eauto.
  - exists 0. destruct (activeDelayers s !! UID r); [eauto|].
    destruct (NeedsDelay r); eauto.
  - (* DSend *)
    pose proof (st_view _ HS (UID r) (Some c)) as Ht. rewrite Hpc in Ht.
    specialize (Ht eq_refl).
    destruct (lookup_lt_is_Some_2 (chans s) c) as [ch Hch];
      [by eapply entry_lt|].
    exists 0. unfold send_on. simpl. rewrite Hch. simpl. unfold chan_send.
    destruct (cclosed ch); simpl; [eauto|].
    rewrite (proj2 (Nat.ltb_lt _ _)) by eauto. simpl. eauto.
  - (* DSendSeed *)
    pose proof (fl_fresh _ HW _ _ Hpc) as Hb.
    assert (c < length (chans s)) as Hlt.
    { rewrite (st_len _ HS), Hpc. simpl.
      destruct (st_spawn _ HS r c) as [-> _]; [by rewrite Hpc|]. lia. }
    destruct (lookup_lt_is_Some_2 _ _ Hlt) as [ch Hch].
    erewrite buf_at_lookup in Hb by done.
    exists 0. unfold send_on. simpl. rewrite Hch. simpl. unfold chan_send.
    destruct (cclosed ch); simpl; [eauto|].
    rewrite Hb, (st_cap _ HS _ _ Hch). simpl. eauto.
  - (* DCall *)
    exists 0. unfold callService. simpl. rewrite Hck. simpl. eauto.
  - exists wake. rewrite (proj2 (Nat.leb_le _ _)) by lia. eauto.
Qed.

Lemma halted_step s n l :
  crashed s = None → halted s → l ≠ Tick →
  step l (set_now (n + now s) s) = None.
Proof. intros Hc Hh Hl. rewrite <-run_ticks_then by done. by apply Hh. Qed.

Lemma no_holder inp s t :
  reachable inp s → mu s = Some t → dlocked (dpc s) = false →
  (∀ i w, workers s !! i = Some w → wlocked (w_pc w) = false) → False.
Proof.
  intros Hr Hm Hd Hws. pose proof (InvFlow_reachable _ _ Hr) as HW.
  destruct t as [|i].
  - pose proof (fl_mu_d _ HW Hm). congruence.
  - destruct (fl_mu_w _ HW _ Hm) as (w & Hw & Hl).
    pose proof (Hws _ _ Hw). congruence.
Qed.

Lemma halted_workers inp s i w :
  reachable inp s → crashed s = None → halted s →
  workers s !! i = Some w →
  (w_pc w = WTimerLock ∧ mu s ≠ None) ∨ w_pc w = WDone.
Proof.
  intros Hr Hc Hh Hw.
  assert (checkCh s = []) as Hck.
  { destruct (checkCh s) as [|x rest] eqn:Hck; [done|]. exfalso.
    pose proof (halted_step s 0 Mon Hc Hh) as Hs.
    unfold step, monitor in Hs. simpl in Hs. rewrite Hc, Hck in Hs.
    specialize (Hs ltac:(done)). by destruct (decide (nextId s = x)). }
  assert (w_pc w = WDone ∨ w_pc w ≠ WDone) as [|Hnd]
    by (destruct (w_pc w); auto); [by right|]. left.
  assert (w_pc w = WTimerLock ∨ w_pc w ≠ WTimerLock) as [Hpc|Hpc]
    by (destruct (w_pc w); auto).
  - split; [done|]. intros Hm.
    destruct (worker_can_move _ _ _ _ Hr Hc Hck Hw Hnd) as (n & tc & Hs);
      [done|].
    rewrite (halted_step s n _ Hc Hh) in Hs by done. by destruct Hs.
  - exfalso.
    destruct (worker_can_move _ _ _ _ Hr Hc Hck Hw Hnd) as (n & tc & Hs);
      [done|].
    rewrite (halted_step s n _ Hc Hh) in Hs by done. by destruct Hs.
Qed.

Lemma finished_halted s :
  crashed s = None → finished s → checkCh s = [] → halted s.
Proof.
  intros Hc [Hd Hws] Hck n l Hl. rewrite run_ticks_then by done.
  unfold step. simpl. rewrite Hc. destruct l as [|rnd|i tc rnd|]; [done|..].
  - unfold processor. simpl. by rewrite Hd.
  - unfold userDelayer. simpl. destruct (workers s !! i) as [w|] eqn:Hw; [|done].
    simpl. by rewrite (Hws _ _ Hw).
  - unfold monitor. simpl. by rewrite Hck.
Qed.

Lemma deadlock_halted s : crashed s = None → deadlock s → halted s.
Proof.
  intros Hc (r & c & ch & w & Hd & Hm & Hch & Hop & Hlen & Hw & Hu & Hpc & Hck
             & Hws) n l Hl.
  rewrite run_ticks_then by done.
  unfold step. simpl. rewrite Hc. destruct l as [|rnd|i tc rnd|]; [done|..].
  - unfold processor, send_on, chan_send. simpl. rewrite Hd, Hch. simpl.
    rewrite Hop.
    by rewrite Hlen, Nat.ltb_irrefl.
  - unfold userDelayer. simpl.
    destruct (workers s !! i) as [w'|] eqn:Hw'; [|done]. simpl.
    destruct (Hws _ _ Hw') as [-> | ->]; [|done].
    unfold mu_lock. simpl. by rewrite Hm.
  - unfold monitor. simpl. by rewrite Hck.
Qed.

Lemma halted_cases inp s :
  reachable inp s → crashed s = None → halted s →
  (finished s ∧ checkCh s = []) ∨ deadlock s.
Proof.
  intros Hr Hc Hh. destruct (Inv_reachable _ _ Hr) as [HL HS].
  pose proof (InvFlow_reachable _ _ Hr) as HW.
  pose proof (λ i w, halted_workers _ _ i w Hr Hc Hh) as Hws.
  assert (checkCh s = []) as Hck.
  { destruct (checkCh s) as [|x rest] eqn:Hck; [done|]. exfalso.
    pose proof (halted_step s 0 Mon Hc Hh) as Hs.
    unfold step, monitor in Hs. simpl in Hs. rewrite Hc, Hck in Hs.
    specialize (Hs ltac:(done)). by destruct (decide (nextId s = x)). }
  assert (∀ i w, workers s !! i = Some w → wlocked (w_pc w) = false) as Hnl.
  { intros i w Hw. by destruct (Hws _ _ Hw) as [[-> _]| ->]. }
  assert (dpc s = DDone ∨ (∃ r, dpc s = DLock r ∧ mu s ≠ None)
          ∨ (∃ r c ch, dpc s = DSend r c ∧ chans s !! c = Some ch
                       ∧ ¬ length (cbuf ch) < ccap ch)
          ∨ (dpc s ≠ DDone ∧ (∀ r, dpc s = DLock r → mu s = None)
             ∧ ∀ r c ch, dpc s = DSend r c → chans s !! c = Some ch →
                         length (cbuf ch) < ccap ch))
    as [Hd|[(r & Hd & Hm)|[(r & c & ch & Hd & Hch & Hfull)|(Hnd & Hlk & Hsd)]]].
  { destruct (dpc s) as [|r|r|r c| | | | | | | | |] eqn:Hd.
    13: by left.
    2: { destruct (mu s) as [t|] eqn:Hm.
         - right. left. exists r. split; [done|]. congruence.
         - do 3 right. split_and!; [done|done|]. intros; discriminate. }
    3: { destruct (chans s !! c) as [ch|] eqn:Hch.
         - destruct (decide (length (cbuf ch) < ccap ch)).
           + do 3 right. split_and!; [done|intros; discriminate|].
             intros ? ? ? ? ?. by simplify_eq.
           + right. right. left. by exists r, c, ch.
         - do 3 right. split_and!; [done|intros; discriminate|].
           intros ? ? ? ? ?. by simplify_eq. }
    all: do 3 right; split_and!;
      [done|intros; discriminate|intros; discriminate]. }
  - (* the dispatcher has returned *)
    left. split; [|done]. split; [done|]. intros i w Hw.
    destruct (Hws _ _ Hw) as [[_ Hm]|Hdone]; [|done]. exfalso.
    destruct (mu s) as [t|] eqn:Hmu; [|done].
    eapply no_holder; [done..| |done]. by rewrite Hd.
  - (* the dispatcher waits for the mutex: somebody holds it *)
    exfalso. destruct (mu s) as [t|] eqn:Hmu; [|done].
    eapply no_holder; [done..| |done]. by rewrite Hd.
  - (* the dispatcher is blocked in a send *)
    right. pose proof (st_view _ HS (UID r) (Some c)) as Ht.
    rewrite Hd in Ht. specialize (Ht eq_refl).
    destruct (st_entry _ HS _ _ Ht) as [(w & Hw & Hu & Ha)|(r0 & Hsp & _)];
      [|by rewrite Hd in Hsp].
    exists r, c, ch, w. split_and!; try done.
    + destruct HL as [HLd _]. apply HLd. by rewrite Hd.
    + destruct (cclosed ch) eqn:Hcl; [|done]. exfalso.
      destruct (st_closed _ HS _ _ Hch Hcl) as (w0 & Hw0 & Hc0). simplify_eq.
      by eapply closedpc_inactive.
    + pose proof (fl_len _ HW _ _ Hch). pose proof (st_cap _ HS _ _ Hch). lia.
    + destruct (Hws _ _ Hw) as [[? _]|Hdone]; [done|].
      by rewrite Hdone in Ha.
    + intros i w' Hw'. destruct (Hws _ _ Hw') as [[? _]|?]; auto.
  - (* the dispatcher can move *)
    exfalso.
    destruct (dispatcher_can_move _ _ Hr Hc Hck Hnd Hlk Hsd) as (n & Hs).
    rewrite (halted_step s n _ Hc Hh) in Hs by done. by destruct Hs.
Qed.

(** X6: the two ways in which the program stops moving.  In a reachable
    state without a panic, no goroutine can ever take a step again,
    however much time passes, exactly when either the dispatcher and all
    workers have returned and [checkCh] is drained, or the program is
    deadlocked: the dispatcher is blocked in [ch <- req] on a full queue
    holding the mutex, that queue's worker is blocked in [mu.Lock()], and
    every other worker has returned or is blocked in [mu.Lock()] too. *)
Theorem halted_iff_finished_or_deadlock inp s :
  reachable inp s → crashed s = None →
  halted s ↔ (finished s ∧ checkCh s = []) ∨ deadlock s.
Proof.
  intros Hr Hc. split; [by apply (halted_cases inp)|].
  intros [[Hf Hck]|Hd]; eauto using finished_halted, deadlock_halted.
Qed.

Lemma deadlocked_reachable : reachable burst deadlocked.
Proof. apply after_reachable. vm_compute. eauto. Qed.

Lemma halted_iff_finished_or_deadlock_witness :
  reachable burst deadlocked ∧ crashed deadlocked = None
  ∧ (halted deadlocked
     ↔ (finished deadlocked ∧ checkCh deadlocked = []) ∨ deadlock deadlocked).
Proof.
  split; [exact deadlocked_reachable|]. split; [vm_compute; reflexivity|].
  apply (halted_iff_finished_or_deadlock burst deadlocked deadlocked_reachable).
  vm_compute. reflexivity.
Defined.

Lemma finished_all_executed inp s :
  reachable inp s → finished s → executed s ≡ₚ inp.
Proof.
  intros Hr Hfin. pose proof (InvFifo_reachable _ _ Hr) as HF.
  apply for_key_perm. intros k.
  pose proof (ff_order _ _ HF k) as Hk.
  rewrite (finished_nothing_pending _ _ _ Hr Hfin), app_nil_r in Hk.
  rewrite Hk, (for_key_consumed _ _ _ HF), (ff_done _ _ HF (proj1 Hfin)).
  simpl. by rewrite app_nil_r.
Qed.

Lemma deadlock_burst inp s :
  reachable inp s → deadlock s →
  ∃ k, queueCap < length (for_key k inp).
Proof.
  intros Hr (r & c & ch & w & Hd & Hm & Hch & Hop & Hlen & Hw & Hu & Hpc & Hck
             & Hws).
  destruct (Inv_reachable _ _ Hr) as [HL HS].
  pose proof (InvFifo_reachable _ _ Hr) as HF.
  exists (UID r).
  pose proof (st_view _ HS (UID r) (Some c)) as Ht. rewrite Hd in Ht.
  specialize (Ht eq_refl).
  pose proof (ff_order _ _ HF (UID r)) as Ho.
  unfold pending, queued in Ho. rewrite Ht, Hd in Ho. simpl in Ho.
  rewrite for_key_one in Ho by done.
  erewrite (buf_at_lookup _ _ _ Hch) in Ho.
  rewrite (for_key_consumed _ _ _ HF), <-Ho, !length_app. simpl.
  rewrite Hlen, (st_cap _ HS _ _ Hch). lia.
Qed.

(** X7: if no key has more than 1000 requests on the stream (the capacity
    of a queue), the program cannot deadlock: whenever no goroutine can
    move any more and there was no panic, the dispatcher and all workers
    have returned, [checkCh] is drained and the requests handed to the
    sink are the requests of the stream, each exactly once. *)
Theorem bounded_bursts_never_deadlock inp s :
  (∀ k, length (for_key k inp) ≤ queueCap) →
  reachable inp s → crashed s = None → halted s →
  finished s ∧ checkCh s = [] ∧ executed s ≡ₚ inp.
Proof.
  intros Hb Hr Hc Hh.
  destruct (halted_cases _ _ Hr Hc Hh) as [[Hf Hck]|Hd].
  - eauto using finished_all_executed.
  - destruct (deadlock_burst _ _ Hr Hd) as [k Hk]. specialize (Hb k). lia.
Qed.

Lemma scenarioB_bounded k : length (for_key k scenarioB) ≤ queueCap.
Proof.
  unfold for_key. etrans; [apply length_filter|]. vm_compute. lia.
Qed.

Lemma endB_halted : halted endB.
Proof.
  apply finished_halted; [vm_compute; reflexivity|exact scenarioB_finished|].
  vm_compute. reflexivity.
Qed.

Lemma bounded_bursts_never_deadlock_witness :
  finished endB ∧ checkCh endB = [] ∧ executed endB ≡ₚ scenarioB.
Proof.
  apply (bounded_bursts_never_deadlock scenarioB endB scenarioB_bounded
           endB_reachable).
  - vm_compute. reflexivity.
  - exact endB_halted.
Defined.

(** X8: a finished run leaves nothing behind.  When the dispatcher and all
    workers have returned, the routing table is empty, the mutex is free,
    the whole stream has been read, and every queue ever made is closed
    and empty. *)
Theorem finished_leaves_nothing inp s :
  reachable inp s → finished s →
  activeDelayers s = ∅ ∧ mu s = None ∧ consumed s = inp
  ∧ length (chans s) = length (workers s)
  ∧ ∀ c ch, chans s !! c = Some ch → cclosed ch = true ∧ cbuf ch = [].
Proof.
  intros Hr [Hd Hws]. destruct (Inv_reachable _ _ Hr) as [HL HS].
  pose proof (InvFlow_reachable _ _ Hr) as HW.
  pose proof (InvFifo_reachable _ _ Hr) as HF.
  assert (length (chans s) = length (workers s)) as Hlen.
  { rewrite (st_len _ HS), Hd. simpl. lia. }
  split_and!; [| | |done|].
  - apply map_empty. intros k. destruct (activeDelayers s !! k) as [c|] eqn:Hk; [|done].
    destruct (st_entry _ HS _ _ Hk) as [(w & Hw & _ & Ha)|(r & Hsp & _)].
    + by rewrite (Hws _ _ Hw) in Ha.
    + by rewrite Hd in Hsp.
  - destruct (mu s) as [t|] eqn:Hm; [|done]. exfalso.
    eapply no_holder; [done..|by rewrite Hd|].
    intros i w Hw. by rewrite (Hws _ _ Hw).
  - rewrite <-(ff_input _ _ HF), (ff_done _ _ HF Hd). by rewrite app_nil_r.
  - intros c ch Hch.
    assert (c < length (workers s)) as Hlt
      by (rewrite <-Hlen; by eapply lookup_lt_Some).
    destruct (lookup_lt_is_Some_2 _ _ Hlt) as [w Hw].
    pose proof (Hws _ _ Hw) as Hpc.
    destruct (fl_closed _ HW _ _ Hw) as (ch' & Hch' & Hcl); [by rewrite Hpc|].
    simplify_eq. split; [done|].
    eapply (st_empty _ HS); [done..|]. by rewrite Hpc.
Qed.

Lemma finished_leaves_nothing_witness :
  reachable scenarioB endB ∧ finished endB
  ∧ activeDelayers endB = ∅ ∧ mu endB = None.
Proof.
  split; [exact endB_reachable|]. split; [exact scenarioB_finished|].
  destruct (finished_leaves_nothing scenarioB endB endB_reachable
              scenarioB_finished) as (Ht & Hm & _).
  split; [exact Ht|exact Hm].
Defined.

(** ** The test *)

Lemma with_stream_nil s : with_stream [] s = s.
Proof. destruct s. unfold with_stream. simpl. by rewrite app_nil_r. Qed.

Lemma mu_unlock_with_stream u s :
  mu_unlock (with_stream u s) = with_stream u (mu_unlock s).
Proof. unfold mu_unlock. simpl. by destruct (mu s). Qed.

Ltac use_eqs :=
  repeat match goal with
  | H : ?x = _ |- context [?x] => rewrite H; simpl
  end.

Lemma step_with_stream u l s s' :
  step l s = Some s' →
  (∀ n, l = Disp n → dpc s = DRecv → externalCh s = [] → u = []) →
  step l (with_stream u s) = Some (with_stream u s').
Proof.
  intros H Hu. step_cases H.
  all: unfold step, processor, userDelayer, monitor, mu_lock, send_on,
         close_on, callService, chan_send, chan_recv, chan_close; simpl.
  all: rewrite ?mu_unlock_with_stream.
  all: use_eqs; try done.
  - by rewrite (Hu _ eq_refl eq_refl eq_refl).
  - by rewrite decide_True by done.
  - by rewrite decide_False by done.
Qed.

Lemma step_stream_shrinks l s s' :
  step l s = Some s' → length (externalCh s') ≤ length (externalCh s).
Proof.
  intros H. step_cases H.
  all: unfold mu_unlock; simpl; repeat case_match; simpl; try lia.
  all: match goal with Hx : externalCh _ = _ |- _ => rewrite Hx end; simpl; lia.
Qed.

Lemma step_done l s s' :
  step l s = Some s' → dpc s' = DDone →
  dpc s = DDone ∨ ∃ n, l = Disp n ∧ dpc s = DRecv ∧ externalCh s = [].
Proof.
  intros H. step_cases H.
  all: unfold mu_unlock; simpl; repeat case_match; simpl; try done; eauto.
Qed.

Lemma upcoming_cons i d rest :
  upcoming i (d :: rest)
  = mkRequest "user1" (task_payload i) (d =? 0) (Z.of_nat i)
    :: upcoming (S i) rest.
Proof.
  unfold upcoming. simpl. rewrite Nat.add_0_r. f_equal.
  apply imap_ext. intros j x _. simpl. by rewrite Nat.add_succ_r.
Qed.

Lemma upcoming_0 draws : upcoming 0 draws = simulateRequests draws.
Proof. done. Qed.

Lemma HInv_init draws : HInv draws (hinit draws).
Proof.
  constructor; simpl; try done; [by exists []|lia].
Qed.

Lemma HInv_step draws l h h' :
  HInv draws h → hstep l h = Some h' → HInv draws h'.
Proof.
  intros [Ha Hcl Hd Hcap] H. unfold hstep in H.
  destruct (crashed (h_core h)) eqn:Hc; [by destruct (h_ppc h)|].
  assert (match l with
          | HProd rnd => producer rnd h
          | HCore l => if recv_blocked l h then None
                       else (λ s', set_core s' h) <$> step l (h_core h)
          end = Some h') as H' by (by destruct (h_ppc h)).
  clear H. destruct l as [rnd|l].
  - (* the main goroutine *)
    unfold producer in H'. destruct h as [draws' ppc closed s]. simpl in *.
    unfold abstract, unsent in *. simpl in *.
    destruct ppc as [i|i r|i wake| |wake|]; simpl in *.
    + destruct draws' as [|d rest]; simplify_eq; constructor; simpl; try done.
      all: try (intros Hx; by specialize (Hcl Hx)).
      all: unfold abstract, unsent; simpl; by rewrite ?with_stream_nil, <-?upcoming_cons.
    + destruct closed; [by specialize (Hcl eq_refl)|].
      unfold send_external in H'.
      destruct (length (externalCh s) <? externalCap) eqn:Hlen; [|done].
      simpl in H'. simplify_eq. apply Nat.ltb_lt in Hlen.
      constructor; simpl; try done.
      * unfold abstract, unsent, with_stream in *. simpl in *.
        by rewrite <-app_assoc.
      * rewrite length_app. simpl. unfold externalCap in *. lia.
    + destruct (wake <=? now s); [|done]. simplify_eq.
      constructor; simpl; try done.
    + destruct closed; [by specialize (Hcl eq_refl)|]. simplify_eq.
      constructor; simpl; try done.
    + destruct (wake <=? now s); [|done]. simplify_eq.
      constructor; simpl; try done.
    + done.
  - (* time, or another goroutine *)
    destruct (recv_blocked l h) eqn:Hb; [done|].
    destruct (step l (h_core h)) as [s'|] eqn:Hs; [|done]. simpl in H'.
    simplify_eq. constructor; simpl; try done.
    + unfold abstract in *. simpl. unfold unsent in *. simpl.
      eapply reachable_step; [exact Ha|]. apply step_with_stream; [done|].
      intros n -> Hdp Hex. unfold recv_blocked in Hb. rewrite Hdp, Hex in Hb.
      destruct (h_closed h) eqn:Hclosed; [|done].
      specialize (Hcl eq_refl). by destruct (h_ppc h).
    + intros Hdone. destruct (step_done _ _ _ Hs Hdone) as [?|(n & -> & Hdp & Hex)];
        [by auto|].
      unfold recv_blocked in Hb. rewrite Hdp, Hex in Hb.
      by destruct (h_closed h).
    + etrans; [by eapply step_stream_shrinks|done].
Qed.

Lemma hrun_app sched1 sched2 h :
  hrun (sched1 ++ sched2) h = h' ← hrun sched1 h; hrun sched2 h'.
Proof.
  revert h. induction sched1 as [|l sched1 IH]; intros h; simpl; [done|].
  destruct (hstep l h) as [h1|]; simpl; [apply IH|done].
Qed.

Lemma hrun_snoc sched l h h' :
  hrun (sched ++ [l]) h = Some h' ↔
  ∃ h1, hrun sched h = Some h1 ∧ hstep l h1 = Some h'.
Proof.
  rewrite hrun_app. split.
  - destruct (hrun sched h) as [h1|]; simpl; [|done].
    destruct (hstep l h1) as [h2|] eqn:Hs; simpl; [|done].
    intros ?; simplify_eq. eauto.
  - intros (h1 & -> & Hs). simpl. by rewrite Hs.
Qed.

Lemma HInv_reachable draws h : hreachable draws h → HInv draws h.
Proof.
  intros [sched Hs]. revert h Hs.
  induction sched as [|l sched IH] using rev_ind; intros h Hs.
  - simpl in Hs. simplify_eq. apply HInv_init.
  - apply hrun_snoc in Hs as (h1 & Hs1 & Hl).
    eapply HInv_step; [by apply IH|done].
Qed.

Lemma hafter_reachable sched draws :
  is_Some (hrun sched (hinit draws)) → hreachable draws (hafter sched draws).
Proof. intros [h Hh]. exists sched. unfold hafter. by rewrite Hh. Qed.

(** X9: the test refines the program that has the whole stream from the
    start.  The main goroutine of the test sends the requests of
    [simulateRequests] one by one through [externalCh] (capacity 100) and
    closes it; the dispatcher blocks while the channel is empty and open.
    Every state the test can reach is, once the requests still to be sent
    are appended to the channel, a reachable state of the program started
    on the whole stream; so every invariant of that program holds in the
    test.  The requests read, those in the channel and those still to be
    sent make up the stream, in order; the channel never holds more than
    100 requests; and [processor] returns only after the channel was
    closed, with the whole stream read. *)
Theorem test_refines_program draws h :
  hreachable draws h →
  reachable (simulateRequests draws) (abstract h)
  ∧ consumed (h_core h) ++ externalCh (h_core h) ++ unsent h
    = simulateRequests draws
  ∧ length (externalCh (h_core h)) ≤ externalCap
  ∧ (dpc (h_core h) = DDone →
       h_closed h = true ∧ consumed (h_core h) = simulateRequests draws).
Proof.
  intros Hr. destruct (HInv_reachable _ _ Hr) as [Ha Hcl Hd Hcap].
  pose proof (InvFifo_reachable _ _ Ha) as HF.
  pose proof (ff_input _ _ HF) as Hin. simpl in Hin.
  split_and!; try done.
  intros Hdone. split; [by auto|].
  pose proof (ff_done _ _ HF Hdone) as Hnil. simpl in Hnil.
  rewrite Hnil, app_nil_r in Hin. done.
Qed.

(** X2: [Test_userDelayer] never trips the ordering monitor.  In every
    state the test can reach, whatever the schedule, the random draws and
    the sleeps, no goroutine has panicked, and the requests handed to the
    sink are exactly the first requests [simulateRequests] generated, in
    the order of generation.  The count is an [int], so it is below
    2^63. *)
Theorem test_run_in_order draws h :
  (Z.of_nat (length draws) ≤ 2 ^ 63)%Z → hreachable draws h →
  crashed (h_core h) = None
  ∧ executed (h_core h)
    = simulateRequests (take (length (executed (h_core h))) draws).
Proof.
  intros Hlen Hr. destruct (HInv_reachable _ _ Hr) as [Ha _ _ _].
  destruct (simulated_requests_in_order _ _ Hlen Ha) as [He Hc].
  split; [exact Hc|exact He].
Qed.

Lemma testB_reachable : hreachable [0; 1] testB.
Proof. apply hafter_reachable. vm_compute. eauto. Qed.

Lemma test_refines_program_witness :
  hreachable [0; 1] testB
  ∧ reachable (simulateRequests [0; 1]) (abstract testB)
  ∧ consumed (h_core testB) ++ externalCh (h_core testB) ++ unsent testB
    = simulateRequests [0; 1]
  ∧ length (externalCh (h_core testB)) ≤ externalCap.
Proof.
  split; [exact testB_reachable|].
  destruct (test_refines_program [0; 1] testB testB_reachable)
    as (Ha & Hin & Hcap & _).
  split; [exact Ha|]. split; [exact Hin|exact Hcap].
Defined.

Lemma test_run_in_order_witness :
  hreachable [0; 1] testB
  ∧ crashed (h_core testB) = None
  ∧ executed (h_core testB)
    = simulateRequests (take (length (executed (h_core testB))) [0; 1]).
Proof.
  split; [exact testB_reachable|].
  apply (test_run_in_order [0; 1] testB); [|exact testB_reachable].
  vm_compute. discriminate.
Defined.

Example testB_run :
  h_ppc testB = PLoop 2 ∧ h_closed testB = false
  ∧ executed (h_core testB) = simulateRequests [0; 1]
  ∧ workers (h_core testB) = [mkWorker "user1" 0 WDone None]
  ∧ dpc (h_core testB) = DRecv ∧ externalCh (h_core testB) = []
  ∧ hstep (HCore (Disp 0)) testB = None.
Proof. vm_compute. done. Qed.
